(** * Go-WebSockets: connection registry, broadcast fan-out and keep-alive

    A shallow embedding of [main.go]: the global [clients] map, the
    per-connection goroutine [wsHandler], the broadcaster [handleBroadcast]
    and the pinger [keepAlive].

    The goroutines are interleaved at the granularity of the statements
    that touch shared state.  Everything between [mutex.Lock()] and
    [mutex.Unlock()] is one atomic step: no critical section of the
    program blocks on a channel.  A call of the websocket library
    ([WriteMessage], [ReadMessage], [Close]) is one step as well.  The
    outcome of every network operation (does a write succeed, what does a
    read return) and the iteration order of [range clients] are chosen by
    the environment and are carried by the labels of the steps. *)

From Stdlib Require Import Strings.String Strings.Byte ZArith.
From stdpp Require Import base option list gmap fin_maps fin_sets.

(** ** Data *)

(** [*websocket.Conn]: only the identity of the pointer matters. *)
Abbreviation Conn := nat (only parsing).

(** The frame types of gorilla/websocket with their wire codes. *)
Inductive MessageType :=
| TextMessage
| BinaryMessage
| CloseMessage
| PingMessage
| PongMessage.


#[global] Instance MessageType_eq_dec : EqDecision MessageType.
Proof. solve_decision. Defined.

#[global] Instance byte_eq_dec : EqDecision byte.
Proof. exact Byte.byte_eq_dec. Defined.

(** The element type of the [broadcast] channel,
    [struct { sender *websocket.Conn; message []byte }].  [env_seq] is a
    ghost field: the position of the message in the log of all messages
    read by the server; the program never inspects it. *)
Record Envelope := mkEnvelope {
  sender : Conn;
  message : list byte;
  env_seq : nat
}.

(** Which statement of the program issued a write (ghost). *)
Inductive Origin :=
| FromWelcome
| FromPing
| FromEnvelope (from : Conn) (seq : nat).

#[global] Instance Origin_eq_dec : EqDecision Origin.
Proof. solve_decision. Defined.

(** One call of [WriteMessage]: the connection written to, the frame type,
    the payload, and whether the call returned a nil error. *)
Record Write := mkWrite {
  w_to : Conn;
  w_type : MessageType;
  w_data : list byte;
  w_ok : bool;
  w_src : Origin
}.

(** The shared part of the program state: the [clients] map, together with
    the history of the calls made on connections ([Close] and
    [WriteMessage]), oldest first. *)
Record Hub := mkHub {
  clients : gmap nat bool;
  closed : list Conn;
  wire : list Write
}.

(** Where the goroutine running [wsHandler] for a connection stands. *)
Inductive Phase :=
| Upgraded                                  (* l.33-44: upgraded, cleanup deferred *)
| Registered                                (* l.47-50: in [clients], welcome not yet sent *)
| Reading                                   (* l.60: blocked in [ReadMessage] *)
| Sending (msg : list byte) (seq : nat)     (* l.66: blocked on [broadcast <-] *)
| Exiting                                   (* l.39-41 pending: the deferred delete *)
| Closing                                   (* l.42 pending: the deferred Close *)
| Done.

#[global] Instance Phase_eq_dec : EqDecision Phase.
Proof. solve_decision. Defined.

Record State := mkState {
  hub : Hub;
  engine : option Envelope;        (* [data] of handleBroadcast, l.77-81 *)
  handlers : gmap nat Phase;       (* one wsHandler goroutine per connection *)
  inbox : list (Conn * list byte)  (* every message read at l.60, oldest first *)
}.

Definition init : State :=
  mkState (mkHub ∅ [] []) None ∅ [].

(** ** Operations on the hub *)

(** [clients[conn] = true] *)
Definition add (conn : Conn) (h : Hub) : Hub :=
  mkHub (<[conn := true]> (clients h)) (closed h) (wire h).

(** [delete(clients, conn)] *)
Definition remove (conn : Conn) (h : Hub) : Hub :=
  mkHub (delete conn (clients h)) (closed h) (wire h).

(** [conn.Close()] *)
Definition Close (conn : Conn) (h : Hub) : Hub :=
  mkHub (clients h) (closed h ++ [conn]) (wire h).

(** [conn.WriteMessage(t, data)], returning a nil error iff [ok]. *)
Definition WriteMessage (conn : Conn) (t : MessageType) (data : list byte)
    (ok : bool) (src : Origin) (h : Hub) : Hub :=
  mkHub (clients h) (closed h) (wire h ++ [mkWrite conn t data ok src]).

(** [for client := range clients { body }].  Go produces every key once, in
    an unspecified order, and does not produce a key that was deleted
    before it was reached. *)
Definition range_clients (body : Conn → Hub → Hub) (order : list Conn)
    (h : Hub) : Hub :=
  foldl (λ acc client,
           if decide (is_Some (clients acc !! client)) then body client acc
           else acc) h order.

(** An iteration order that [range] can produce on the map [m]. *)
Definition range_order (m : gmap nat bool) (order : list Conn) : Prop :=
  NoDup order ∧ list_to_set order = dom m.

#[global] Instance range_order_dec m order : Decision (range_order m order).
Proof. unfold range_order. apply _. Defined.

(** ** handleBroadcast, l.81-91: the traversal for one envelope *)

Definition broadcast_body (data : Envelope) (wr : Conn → bool)
    (client : Conn) (h : Hub) : Hub :=
  if decide (client ≠ sender data) then
    let h1 := WriteMessage client TextMessage (message data) (wr client)
                (FromEnvelope (sender data) (env_seq data)) h in
    if wr client then h1 else remove client (Close client h1)
  else h.

Definition broadcast_locked (data : Envelope) (order : list Conn)
    (wr : Conn → bool) (h : Hub) : Hub :=
  range_clients (broadcast_body data wr) order h.

(** ** keepAlive, l.102-110: the traversal for one tick *)

(** [time.Second], in nanoseconds, and the period of the ticker (l.97). *)
Definition Second : Z := 1000000000.
Definition keepAlive_period : Z := 30 * Second.

Definition keepAlive_body (wr : Conn → bool) (client : Conn) (h : Hub) : Hub :=
  let h1 := WriteMessage client PingMessage [] (wr client) FromPing h in
  if wr client then h1 else remove client (Close client h1).

Definition keepAlive_locked (order : list Conn) (wr : Conn → bool)
    (h : Hub) : Hub :=
  range_clients (keepAlive_body wr) order h.

(** ** The goroutines *)

Definition welcome : list byte :=
  list_byte_of_string "Welcome to the WebSocket server!".

Definition set_hub (h : Hub) (s : State) : State :=
  mkState h (engine s) (handlers s) (inbox s).

Definition set_phase (conn : Conn) (p : Phase) (s : State) : State :=
  mkState (hub s) (engine s) (<[conn := p]> (handlers s)) (inbox s).

(** What the environment does to the handler of one connection. *)
Inductive HandlerEvent :=
| EvRegister                                       (* l.47-49 *)
| EvWelcome (ok : bool)                            (* l.53 *)
| EvRead (r : option (MessageType * list byte))    (* l.60; None: err != nil *)
| EvSend                                           (* l.66 meets l.77 *)
| EvDeregister                                     (* l.39-41 *)
| EvClose.                                         (* l.42 *)

(** One step of [wsHandler] on [conn].  [None]: the handler is not at a
    statement to which the event applies. *)
Definition wsHandler (conn : Conn) (ev : HandlerEvent) (s : State)
    : option State :=
  match ev, handlers s !! conn with
  | EvRegister, Some Upgraded =>
      Some (set_phase conn Registered (set_hub (add conn (hub s)) s))
  | EvWelcome ok, Some Registered =>
      let h := WriteMessage conn TextMessage welcome ok FromWelcome (hub s) in
      Some (set_phase conn (if ok then Reading else Exiting) (set_hub h s))
  | EvRead (Some (_, msg)), Some Reading =>
      Some (set_phase conn (Sending msg (length (inbox s)))
              (mkState (hub s) (engine s) (handlers s)
                       (inbox s ++ [(conn, msg)])))
  | EvRead None, Some Reading =>
      Some (set_phase conn Exiting s)
  | EvSend, Some (Sending msg seq) =>
      match engine s with
      | None =>
          Some (set_phase conn Reading
                  (mkState (hub s) (Some (mkEnvelope conn msg seq))
                           (handlers s) (inbox s)))
      | Some _ => None
      end
  | EvDeregister, Some Exiting =>
      Some (set_phase conn Closing (set_hub (remove conn (hub s)) s))
  | EvClose, Some Closing =>
      Some (set_phase conn Done (set_hub (Close conn (hub s)) s))
  | _, _ => None
  end.

(** One iteration of the loop of [handleBroadcast] once [data] has been
    received: l.81-91. *)
Definition handleBroadcast (order : list Conn) (wr : Conn → bool)
    (s : State) : option State :=
  match engine s with
  | Some data =>
      if decide (range_order (clients (hub s)) order) then
        Some (mkState (broadcast_locked data order wr (hub s)) None
                      (handlers s) (inbox s))
      else None
  | None => None
  end.

(** One iteration of the loop of [keepAlive]: l.101-110. *)
Definition keepAlive (order : list Conn) (wr : Conn → bool)
    (s : State) : option State :=
  if decide (range_order (clients (hub s)) order) then
    Some (set_hub (keepAlive_locked order wr (hub s)) s)
  else None.

Inductive Action :=
| Upgrade (conn : Conn)                              (* l.33 succeeds *)
| UpgradeFailed                                      (* l.34-37 *)
| Handler (conn : Conn) (ev : HandlerEvent)
| Broadcast (order : list Conn) (wr : Conn → bool)
| Tick (order : list Conn) (wr : Conn → bool).

Definition step (a : Action) (s : State) : option State :=
  match a with
  | Upgrade conn =>
      match handlers s !! conn with
      | None => Some (set_phase conn Upgraded s)
      | Some _ => None
      end
  | UpgradeFailed => Some s
  | Handler conn ev => wsHandler conn ev s
  | Broadcast order wr => handleBroadcast order wr s
  | Tick order wr => keepAlive order wr s
  end.

Fixpoint run (acts : list Action) (s : State) : option State :=
  match acts with
  | [] => Some s
  | a :: acts' =>
      match step a s with
      | Some s' => run acts' s'
      | None => None
      end
  end.

Definition reachable (s : State) : Prop :=
  ∃ acts, run acts init = Some s.

(** ** Observations *)

(** How many times [Close] was called on [conn]. *)
Definition close_count (conn : Conn) (h : Hub) : nat :=
  length (filter (λ c, c = conn) (closed h)).

(** The writes made between two hubs. *)
Definition new_writes (h h' : Hub) : list Write :=
  drop (length (wire h)) (wire h').

Definition new_closes (h h' : Hub) : list Conn :=
  drop (length (closed h)) (closed h').

(** The writes addressed to [conn]. *)
Definition writes_to (conn : Conn) (ws : list Write) : list Write :=
  filter (λ w, w_to w = conn) ws.

Definition registered (conn : Conn) (h : Hub) : Prop :=
  is_Some (clients h !! conn).

(** ** The shape shared by the two loops *)

(** Write to the eligible clients; close and delete those whose write
    fails.  Used only to share the proofs about the two loops above. *)
Definition prune_body (elig : Conn → bool) (t : MessageType)
    (data : list byte) (src : Origin) (wr : Conn → bool)
    (client : Conn) (h : Hub) : Hub :=
  if elig client then
    let h1 := WriteMessage client t data (wr client) src h in
    if wr client then h1 else remove client (Close client h1)
  else h.

(** The clients that such a loop writes to when it starts from [h] and
    goes through [order], and those among them that it prunes. *)
Definition visited (elig : Conn → bool) (h : Hub) (order : list Conn)
    : list Conn :=
  filter (λ c, elig c = true ∧ is_Some (clients h !! c)) order.

Definition pruned (elig wr : Conn → bool) (h : Hub) (order : list Conn)
    : list Conn :=
  filter (λ c, wr c = false) (visited elig h order).

(** The two instances: [handleBroadcast] writes a text frame to everyone
    but the sender, [keepAlive] writes a ping to everyone. *)
Definition not_sender (data : Envelope) (c : Conn) : bool :=
  bool_decide (c ≠ sender data).

Definition everyone (c : Conn) : bool := true.

Definition text_frame (data : Envelope) (wr : Conn → bool) (c : Conn) : Write :=
  mkWrite c TextMessage (message data) (wr c)
    (FromEnvelope (sender data) (env_seq data)).

Definition ping_frame (wr : Conn → bool) (c : Conn) : Write :=
  mkWrite c PingMessage [] (wr c) FromPing.

(** ** The steps of [wsHandler] as a relation

    The same transitions as the function [wsHandler], in the form used by
    the invariant proofs ([wsHandler_spec] below relates the two). *)
Inductive handler_step (conn : Conn) : HandlerEvent → State → State → Prop :=
| HRegister s :
    handlers s !! conn = Some Upgraded →
    handler_step conn EvRegister s
      (set_phase conn Registered (set_hub (add conn (hub s)) s))
| HWelcome s ok :
    handlers s !! conn = Some Registered →
    handler_step conn (EvWelcome ok) s
      (set_phase conn (if ok then Reading else Exiting)
         (set_hub (WriteMessage conn TextMessage welcome ok FromWelcome (hub s)) s))
| HRead s t msg :
    handlers s !! conn = Some Reading →
    handler_step conn (EvRead (Some (t, msg))) s
      (set_phase conn (Sending msg (length (inbox s)))
         (mkState (hub s) (engine s) (handlers s) (inbox s ++ [(conn, msg)])))
| HReadErr s :
    handlers s !! conn = Some Reading →
    handler_step conn (EvRead None) s (set_phase conn Exiting s)
| HSend s msg seq :
    handlers s !! conn = Some (Sending msg seq) →
    engine s = None →
    handler_step conn EvSend s
      (set_phase conn Reading
         (mkState (hub s) (Some (mkEnvelope conn msg seq)) (handlers s) (inbox s)))
| HDeregister s :
    handlers s !! conn = Some Exiting →
    handler_step conn EvDeregister s
      (set_phase conn Closing (set_hub (remove conn (hub s)) s))
| HClose s :
    handlers s !! conn = Some Closing →
    handler_step conn EvClose s
      (set_phase conn Done (set_hub (Close conn (hub s)) s)).

(** ** Invariants of the reachable states *)

(** How far the handler of [c] is, against the registry and the number of
    [Close] calls on [c]. *)
Definition lifecycle_ok (s : State) (c : Conn) : Prop :=
  match handlers s !! c with
  | None | Some Upgraded =>
      ¬ registered c (hub s) ∧ close_count c (hub s) = 0
  | Some Closing =>
      ¬ registered c (hub s) ∧ close_count c (hub s) ≤ 1
  | Some Done =>
      ¬ registered c (hub s) ∧ 1 ≤ close_count c (hub s) ≤ 2
  | Some _ =>
      (registered c (hub s) ∧ close_count c (hub s) = 0) ∨
      (¬ registered c (hub s) ∧ close_count c (hub s) = 1)
  end.

(** What a write must look like, given the statement that issued it. *)
Definition write_ok (log : list (Conn * list byte)) (w : Write) : Prop :=
  match w_src w with
  | FromWelcome => w_type w = TextMessage ∧ w_data w = welcome
  | FromPing => w_type w = PingMessage ∧ w_data w = []
  | FromEnvelope from seq =>
      w_to w ≠ from ∧ w_type w = TextMessage ∧
      log !! seq = Some (from, w_data w)
  end.

Definition wire_ok (s : State) : Prop :=
  Forall (write_ok (inbox s)) (wire (hub s)) ∧
  (∀ data, engine s = Some data →
     inbox s !! env_seq data = Some (sender data, message data)) ∧
  (∀ c msg seq, handlers s !! c = Some (Sending msg seq) →
     inbox s !! seq = Some (c, msg)).

(** The welcome writes addressed to [c]. *)
Definition welcomes (c : Conn) (h : Hub) : list Write :=
  filter (λ w, w_to w = c ∧ w_src w = FromWelcome) (wire h).

Definition welcome_ok (s : State) (c : Conn) : Prop :=
  match handlers s !! c with
  | None | Some Upgraded | Some Registered => welcomes c (hub s) = []
  | Some _ => ∃ ok, welcomes c (hub s) =
                    [mkWrite c TextMessage welcome ok FromWelcome]
  end.

(** The sequence number of a broadcast write of an envelope sent by [a]. *)
Definition seq_from (a : Conn) (w : Write) : option nat :=
  match w_src w with
  | FromEnvelope from seq => if decide (from = a) then Some seq else None
  | _ => None
  end.

(** Every broadcast write of an envelope of [a] in [ws] carries a sequence
    number below [k]. *)
Definition below (a : Conn) (k : nat) (ws : list Write) : Prop :=
  ∀ w n, w ∈ ws → seq_from a w = Some n → n < k.

(** The broadcast writes of the envelopes of [a] appear in [ws] in the
    order of their sequence numbers. *)
Definition ordered (a : Conn) (ws : list Write) : Prop :=
  ∀ i j w1 w2 n1 n2,
    ws !! i = Some w1 → ws !! j = Some w2 →
    seq_from a w1 = Some n1 → seq_from a w2 = Some n2 →
    i ≤ j → n1 ≤ n2.

Definition fifo_ok (s : State) : Prop :=
  (∀ a, below a (length (inbox s)) (wire (hub s))) ∧
  (∀ data, engine s = Some data →
     env_seq data < length (inbox s) ∧
     below (sender data) (env_seq data) (wire (hub s))) ∧
  (∀ a msg k, handlers s !! a = Some (Sending msg k) →
     k < length (inbox s) ∧
     below a k (wire (hub s)) ∧
     (∀ data, engine s = Some data → sender data = a → env_seq data < k)) ∧
  (∀ a, ordered a (wire (hub s))).

(** The handler of [c] has left the body of [wsHandler] and is in, or
    past, the deferred cleanup. *)
Definition leaving (s : State) (c : Conn) : Prop :=
  match handlers s !! c with
  | Some Exiting => True
  | Some Closing => ¬ registered c (hub s)
  | Some Done => ¬ registered c (hub s) ∧ c ∈ closed (hub s)
  | _ => False
  end.

(** ** Runs used as examples *)

Definition hello : list byte := list_byte_of_string "hello".

(** Connections 1 and 2 are admitted; 1 sends a message; the broadcast
    write to 2 fails; then the read of 2 fails and its handler exits. *)
Definition double_close_run : list Action :=
  [Upgrade 1; Handler 1 EvRegister; Handler 1 (EvWelcome true);
   Upgrade 2; Handler 2 EvRegister; Handler 2 (EvWelcome true);
   Handler 1 (EvRead (Some (TextMessage, hello))); Handler 1 EvSend;
   Broadcast [2; 1] (λ _, false);
   Handler 2 (EvRead None); Handler 2 EvDeregister; Handler 2 EvClose].

(** The handler of [c] has returned and nothing more will happen to [c]:
    it is not registered and [Close] was called on it [k] times. *)
Definition finished (c : Conn) (k : nat) (s : State) : Prop :=
  handlers s !! c = Some Done ∧ ¬ registered c (hub s) ∧
  close_count c (hub s) = k.

(** The state after a run from [init] ([init] itself if the run blocks). *)
Definition after (acts : list Action) : State :=
  default init (run acts init).

(** Admission of [c]: upgrade, registration, welcome sent. *)
Definition connect (c : Conn) : list Action :=
  [Upgrade c; Handler c EvRegister; Handler c (EvWelcome true)].

(** [c] receives a frame and hands it to the broadcaster. *)
Definition say (c : Conn) (t : MessageType) (msg : list byte) : list Action :=
  [Handler c (EvRead (Some (t, msg))); Handler c EvSend].

Definition all_ok (c : Conn) : bool := true.

Definition fails_at (b c : Conn) : bool := bool_decide (c ≠ b).

Definition world : list byte := list_byte_of_string "world".

(** The envelope of the first message read by the server, "hello" from
    connection 1. *)
Definition hello_env : Envelope := mkEnvelope 1 hello 0.

(** Three connections open; connection 1 sends "hello". *)
Definition hello_run : list Action :=
  connect 1 ++ connect 2 ++ connect 3 ++ say 1 TextMessage hello.

(** Connection 1 sends "hello" in a binary frame to connection 2. *)
Definition binary_run : list Action :=
  connect 1 ++ connect 2 ++
  say 1 BinaryMessage hello ++ [Broadcast [1; 2] all_ok].

(** Connection 1 sends "hello" and then "world" to connection 2. *)
Definition fifo_run : list Action :=
  connect 1 ++ connect 2 ++
  say 1 TextMessage hello ++ [Broadcast [2; 1] all_ok] ++
  say 1 TextMessage world ++ [Broadcast [1; 2] all_ok].

(** Four connections open; connection 1 sends "hello". *)
Definition four_run : list Action :=
  connect 1 ++ connect 2 ++ connect 3 ++ connect 4 ++ say 1 TextMessage hello.

(** Three connections open and waiting for messages. *)
Definition three_open : list Action := connect 1 ++ connect 2 ++ connect 3.

(** Connection 1 is upgraded and registered; its welcome write fails. *)
Definition welcome_fails_run : list Action :=
  [Upgrade 1; Handler 1 EvRegister].

(** Connection 2 is registered but has not been sent its welcome yet when
    a message of connection 1 is broadcast. *)
Definition early_broadcast_run : list Action :=
  connect 1 ++ [Upgrade 2; Handler 2 EvRegister] ++
  say 1 TextMessage hello ++ [Broadcast [1; 2] all_ok] ++
  [Handler 2 (EvWelcome true)].

(** ** Further observations on the relay *)

(** The broadcast writes addressed to [r] of the envelope numbered [n] of
    sender [a]. *)
Definition deliveries (r a : Conn) (n : nat) (h : Hub) : list Write :=
  filter (λ w, w_to w = r ∧ w_src w = FromEnvelope a n) (wire h).

(** The messages read from [c], oldest first. *)
Definition heard (c : Conn) (s : State) : list (Conn * list byte) :=
  filter (λ e, e.1 = c) (inbox s).

(** The handler of [c] has executed the registration at l.47-49. *)
Definition past_registration (s : State) (c : Conn) : Prop :=
  ∃ ph, handlers s !! c = Some ph ∧ ph ≠ Upgraded.

(** The one welcome write to [c] was made and returned a nil error. *)
Definition welcomed (c : Conn) (h : Hub) : Prop :=
  welcomes c h = [mkWrite c TextMessage welcome true FromWelcome].

(** Messages are read only from a connection whose welcome succeeded. *)
Definition accept_ok (s : State) (c : Conn) : Prop :=
  match handlers s !! c with
  | None | Some Upgraded | Some Registered => heard c s = []
  | Some Reading | Some (Sending _ _) => welcomed c (hub s)
  | Some _ => heard c s = [] ∨ welcomed c (hub s)
  end.

(** No envelope is written twice to one recipient. *)
Definition delivered_once (s : State) : Prop :=
  ∀ r a n, length (deliveries r a n (hub s)) ≤ 1.

(** Three connections open; connection 1 sends "hello" and disconnects
    while the broadcaster still holds the envelope. *)
Definition orphan_run : list Action :=
  connect 1 ++ connect 2 ++ connect 3 ++ say 1 TextMessage hello ++
  [Handler 1 (EvRead None); Handler 1 EvDeregister; Handler 1 EvClose].

(** Three connections open; a tick on which the ping to 2 fails. *)
Definition pruned_run : list Action :=
  three_open ++ [Tick [1; 2; 3] (fails_at 2)].

(** ** The echo server (the second program of the repository)

    [wsEndpoint] upgrades the request, greets the client and runs
    [reader], which writes every message back to the connection it came
    from.  The calls of [log.Println] are left out; the lines printed by
    [fmt.Println] are kept. *)

(** One call of [WriteMessage]: the frame type as the integer handed to
    the library, the payload, and whether the call returned a nil error. *)
Record Frame := mkFrame {
  f_type : Z;
  f_data : list byte;
  f_ok : bool
}.

(** What the environment answers in one iteration of the loop of
    [reader]: the result of [ReadMessage] ([None]: err != nil) and, looked
    at only when a message was read, whether the echo write succeeds. *)
Abbreviation Iteration := (option (Z * list byte) * bool)%type (only parsing).

(** How a session stands when the script of the environment is used up. *)
Inductive Exit :=
| ReadFailed      (* returned at l.43-46 *)
| WriteFailed     (* returned at l.51-54 *)
| Blocked.        (* waiting in [ReadMessage], l.42 *)

#[global] Instance Exit_eq_dec : EqDecision Exit.
Proof. solve_decision. Defined.

Record Session := mkSession {
  written : list Frame;          (* the calls of [WriteMessage], oldest first *)
  printed : list (list byte);    (* the lines of [fmt.Println], oldest first *)
  exit : Exit
}.

(** [reader], l.39-56. *)
Fixpoint reader (script : list Iteration) : Session :=
  match script with
  | [] => mkSession [] [] Blocked
  | (None, _) :: _ => mkSession [] [] ReadFailed
  | (Some (messageType, p), ok) :: rest =>
      if ok then
        let r := reader rest in
        mkSession (mkFrame messageType p true :: written r)
                  (p :: printed r) (exit r)
      else mkSession [mkFrame messageType p false] [p] WriteFailed
  end.




(** The iterations in which the messages [l] are read and echoed without
    failure, the echo writes they give rise to and the lines printed. *)
Definition smooth (l : list (Z * list byte)) : list Iteration :=
  (λ m, (Some m, true)) <$> l.

Definition echoes (l : list (Z * list byte)) : list Frame :=
  (λ m, mkFrame m.1 m.2 true) <$> l.

Definition payloads (l : list (Z * list byte)) : list (list byte) :=
  snd <$> l.

(** * Proofs *)

(** ** The two traversals are instances of one loop shape *)

Lemma broadcast_body_prune data wr client h :
  broadcast_body data wr client h =
  prune_body (not_sender data) TextMessage (message data)
    (FromEnvelope (sender data) (env_seq data)) wr client h.
Proof.
  unfold broadcast_body, prune_body, not_sender.
  destruct (decide (client ≠ sender data)) as [Hne|Heq].
  - by rewrite bool_decide_eq_true_2.
  - by rewrite bool_decide_eq_false_2.
Qed.

Lemma keepAlive_body_prune wr client h :
  keepAlive_body wr client h =
  prune_body everyone PingMessage [] FromPing wr client h.
Proof. reflexivity. Qed.

Lemma range_clients_ext body1 body2 order h :
  (∀ c h', body1 c h' = body2 c h') →
  range_clients body1 order h = range_clients body2 order h.
Proof.
  intros Hext. revert h. induction order as [|c l IH]; intros h; [done|].
  cbn. rewrite Hext. apply IH.
Qed.

Lemma range_clients_cons body c l h :
  range_clients body (c :: l) h =
  range_clients body l
    (if decide (is_Some (clients h !! c)) then body c h else h).
Proof. reflexivity. Qed.

Lemma filter_ext_elem {A} (P Q : A → Prop) `{!∀ x, Decision (P x)}
    `{!∀ x, Decision (Q x)} (l : list A) :
  (∀ x, x ∈ l → P x ↔ Q x) → filter P l = filter Q l.
Proof.
  induction l as [|a l IH]; intros Hpq; [done|].
  rewrite !filter_cons.
  assert (filter P l = filter Q l) as ->.
  { apply IH. intros x Hx. apply Hpq. by right. }
  destruct (decide (P a)) as [Hp|Hp], (decide (Q a)) as [Hq|Hq]; try done.
  - exfalso. apply Hq, Hpq; [by left|done].
  - exfalso. apply Hp, Hpq; [by left|done].
Qed.

Lemma range_order_elem m order c :
  range_order m order → c ∈ order ↔ is_Some (m !! c).
Proof.
  intros [_ Hdom]. rewrite <- elem_of_dom, <- Hdom. by rewrite elem_of_list_to_set.
Qed.

Lemma range_order_length m order :
  range_order m order → length order = size m.
Proof.
  intros [Hnd Hdom]. rewrite <- size_dom, <- Hdom.
  by rewrite size_list_to_set.
Qed.

Section traversal.
Variables (elig : Conn → bool) (t : MessageType) (data : list byte).
Variables (src : Origin) (wr : Conn → bool).

Let body := prune_body elig t data src wr.
Let frame (c : Conn) := mkWrite c t data (wr c) src.

Lemma visited_stable h h1 c0 l :
  c0 ∉ l →
  (∀ c, c ≠ c0 → clients h1 !! c = clients h !! c) →
  visited elig h1 l = visited elig h l.
Proof.
  intros Hnin Hsame. apply filter_ext_elem. intros c Hc.
  rewrite Hsame; [done|]. intros ->. done.
Qed.

Lemma body_clients_other c0 h c :
  c ≠ c0 → clients (body c0 h) !! c = clients h !! c.
Proof.
  intros Hne. unfold body, prune_body.
  destruct (elig c0); [|done]. destruct (wr c0); cbn; [done|].
  by rewrite lookup_delete_ne.
Qed.

Lemma range_wire order h :
  NoDup order →
  wire (range_clients body order h) =
  wire h ++ (frame <$> visited elig h order).
Proof.
  revert h. induction order as [|c0 l IH]; intros h Hnd.
  { cbn. by rewrite app_nil_r. }
  apply NoDup_cons in Hnd as [Hnin Hnd].
  rewrite range_clients_cons, IH by done.
  unfold visited at 2. rewrite filter_cons.
  destruct (decide (is_Some (clients h !! c0))) as [Hreg|Hreg].
  - rewrite (visited_stable h _ c0) by eauto using body_clients_other.
    unfold body at 1, prune_body.
    destruct (elig c0) eqn:He.
    + rewrite decide_True by done. rewrite fmap_cons.
      unfold frame at 2.
      destruct (wr c0) eqn:Hw; cbn; by rewrite <- app_assoc.
    + rewrite decide_False by (intros [? _]; done). done.
  - rewrite decide_False by (intros [_ ?]; done). done.
Qed.

Lemma range_closed order h :
  NoDup order →
  closed (range_clients body order h) = closed h ++ pruned elig wr h order.
Proof.
  revert h. induction order as [|c0 l IH]; intros h Hnd.
  { cbn. by rewrite app_nil_r. }
  apply NoDup_cons in Hnd as [Hnin Hnd].
  rewrite range_clients_cons, IH by done.
  unfold pruned, visited at 2. rewrite filter_cons.
  destruct (decide (is_Some (clients h !! c0))) as [Hreg|Hreg].
  - rewrite (visited_stable h _ c0) by eauto using body_clients_other.
    unfold body at 1, prune_body.
    destruct (elig c0) eqn:He.
    + rewrite decide_True by done. rewrite filter_cons.
      destruct (wr c0) eqn:Hw; cbn.
      * rewrite decide_False by done. done.
      * rewrite decide_True by done. by rewrite <- app_assoc.
    + rewrite decide_False by (intros [? _]; done). done.
  - rewrite decide_False by (intros [_ ?]; done). done.
Qed.

Lemma body_lookup_None c0 h c :
  clients h !! c = None → clients (body c0 h) !! c = None.
Proof.
  intros Hc. unfold body, prune_body.
  destruct (elig c0); [|done]. destruct (wr c0); cbn; [done|].
  rewrite lookup_delete. by case_decide.
Qed.

Lemma range_lookup_None order h c :
  clients h !! c = None → clients (range_clients body order h) !! c = None.
Proof.
  revert h. induction order as [|c0 l IH]; intros h Hc; [done|].
  rewrite range_clients_cons. apply IH.
  case_decide; [by apply body_lookup_None|done].
Qed.

(** Without any assumption on [order]: only eligible clients that were
    registered when the loop started are written to. *)
Lemma range_wire_any order h :
  ∃ l, wire (range_clients body order h) = wire h ++ (frame <$> l) ∧
       Forall (λ c, elig c = true ∧ c ∈ order ∧ is_Some (clients h !! c)) l.
Proof.
  revert h. induction order as [|c0 l IH]; intros h.
  { exists []. cbn. by rewrite app_nil_r. }
  rewrite range_clients_cons.
  destruct (IH (if decide (is_Some (clients h !! c0)) then body c0 h else h))
    as (l' & -> & Hl').
  assert (Forall (λ c, elig c = true ∧ c ∈ c0 :: l ∧
                       is_Some (clients h !! c)) l') as Hl''.
  { eapply Forall_impl; [done|]. intros c (? & ? & Hc).
    split_and!; [done|by right|].
    case_decide; [|done]. apply not_eq_None_Some. intros Hn.
    apply (body_lookup_None c0) in Hn. apply eq_None_not_Some in Hn. done. }
  case_decide; [|by exists l'].
  unfold body at 1, prune_body. destruct (elig c0) eqn:He; [|by exists l'].
  exists (c0 :: l'). split.
  - destruct (wr c0) eqn:Hw; cbn; unfold frame at 2;
      by rewrite ?Hw, <- app_assoc.
  - constructor; [|done]. split_and!; [done|left|done].
Qed.

(** A client whose write fails is no longer in the map after the loop. *)
Lemma range_lookup_pruned order h c :
  c ∈ order → elig c = true → wr c = false →
  clients (range_clients body order h) !! c = None.
Proof.
  intros Hin He Hw. revert h.
  induction order as [|c0 l IH]; intros h; [by apply elem_of_nil in Hin|].
  rewrite range_clients_cons.
  destruct (decide (c = c0)) as [->|Hne].
  - apply range_lookup_None. case_decide as Hreg.
    + unfold body, prune_body. rewrite He, Hw. cbn. apply lookup_delete_eq.
    + by apply eq_None_not_Some.
  - apply elem_of_cons in Hin as [?|Hin]; [done|]. by apply IH.
Qed.

(** Every other entry of the map is left as it was. *)
Lemma range_lookup_kept order h c :
  c ∉ order ∨ elig c = false ∨ wr c = true →
  clients (range_clients body order h) !! c = clients h !! c.
Proof.
  intros Hkeep. revert h.
  induction order as [|c0 l IH]; intros h; [done|].
  rewrite range_clients_cons, IH.
  - case_decide; [|done]. destruct (decide (c = c0)) as [->|Hne].
    + unfold body, prune_body.
      destruct Hkeep as [Hnin|[He|Hw]].
      * exfalso. apply Hnin. left.
      * by rewrite He.
      * rewrite Hw. by destruct (elig c0).
    + by apply body_clients_other.
  - destruct Hkeep as [Hnin|?]; [|by right].
    left. intros Hin. apply Hnin. by right.
Qed.

End traversal.

Lemma elem_of_visited elig h order c :
  c ∈ visited elig h order ↔
  c ∈ order ∧ elig c = true ∧ is_Some (clients h !! c).
Proof. unfold visited. rewrite list_elem_of_filter. tauto. Qed.

Lemma elem_of_pruned elig wr h order c :
  c ∈ pruned elig wr h order ↔
  c ∈ order ∧ elig c = true ∧ is_Some (clients h !! c) ∧ wr c = false.
Proof.
  unfold pruned. rewrite list_elem_of_filter, elem_of_visited. tauto.
Qed.

Lemma NoDup_visited elig h order : NoDup order → NoDup (visited elig h order).
Proof. apply NoDup_filter. Qed.

Lemma NoDup_pruned elig wr h order : NoDup order → NoDup (pruned elig wr h order).
Proof. intros ?. by apply NoDup_filter, NoDup_visited. Qed.

(** In a list without duplicates an element is counted at most once. *)
Lemma filter_eq_NoDup {A} `{EqDecision A} (l : list A) (x : A) :
  NoDup l →
  filter (λ y, y = x) l = if decide (x ∈ l) then [x] else [].
Proof.
  induction l as [|a l IH]; intros Hnd; [done|].
  apply NoDup_cons in Hnd as [Hnin Hnd].
  rewrite filter_cons, IH by done.
  destruct (decide (a = x)) as [->|Hne].
  - rewrite (decide_True (P := x ∈ x :: l)) by left.
    by rewrite decide_False.
  - destruct (decide (x ∈ l)) as [Hin|Hin'].
    + rewrite decide_True; [done|by right].
    + rewrite decide_False; [done|].
      intros [?|?]%elem_of_cons; [by subst|done].
Qed.

Lemma new_writes_app h h' ws : wire h' = wire h ++ ws → new_writes h h' = ws.
Proof. intros Hw. unfold new_writes. rewrite Hw. apply drop_app_length. Qed.

Lemma new_closes_app h h' cs :
  closed h' = closed h ++ cs → new_closes h h' = cs.
Proof. intros Hc. unfold new_closes. rewrite Hc. apply drop_app_length. Qed.

Lemma writes_to_fmap (f : Conn → Write) (l : list Conn) (c : Conn) :
  (∀ x, w_to (f x) = x) →
  writes_to c (f <$> l) = f <$> filter (λ x, x = c) l.
Proof.
  intros Hf. unfold writes_to.
  induction l as [|a l IH]; [done|].
  rewrite fmap_cons, !filter_cons, Hf, IH.
  by destruct (decide (a = c)).
Qed.

Lemma writes_to_none c ws :
  Forall (λ w, w_to w ≠ c) ws → writes_to c ws = [].
Proof.
  unfold writes_to. induction 1 as [|w ws Hne _ IH]; [done|].
  by rewrite filter_cons, decide_False.
Qed.

(** ** What one traversal of [handleBroadcast] does *)

Lemma broadcast_locked_prune data order wr h :
  broadcast_locked data order wr h =
  range_clients
    (prune_body (not_sender data) TextMessage (message data)
       (FromEnvelope (sender data) (env_seq data)) wr) order h.
Proof. apply range_clients_ext, broadcast_body_prune. Qed.

Lemma not_sender_true data c : not_sender data c = true ↔ c ≠ sender data.
Proof. unfold not_sender. apply bool_decide_eq_true. Qed.

Lemma broadcast_new_writes data order wr h :
  NoDup order →
  new_writes h (broadcast_locked data order wr h) =
  text_frame data wr <$> visited (not_sender data) h order.
Proof.
  intros Hnd. apply new_writes_app.
  rewrite broadcast_locked_prune. by apply range_wire.
Qed.

Lemma broadcast_new_closes data order wr h :
  NoDup order →
  new_closes h (broadcast_locked data order wr h) =
  pruned (not_sender data) wr h order.
Proof.
  intros Hnd. apply new_closes_app.
  rewrite broadcast_locked_prune. by apply range_closed.
Qed.

(** ** What one traversal of [keepAlive] does *)

Lemma keepAlive_locked_prune order wr h :
  keepAlive_locked order wr h =
  range_clients (prune_body everyone PingMessage [] FromPing wr) order h.
Proof. reflexivity. Qed.

Lemma keepAlive_new_writes order wr h :
  NoDup order →
  new_writes h (keepAlive_locked order wr h) =
  ping_frame wr <$> visited everyone h order.
Proof.
  intros Hnd. apply new_writes_app.
  rewrite keepAlive_locked_prune. by apply range_wire.
Qed.

Lemma keepAlive_new_closes order wr h :
  NoDup order →
  new_closes h (keepAlive_locked order wr h) = pruned everyone wr h order.
Proof.
  intros Hnd. apply new_closes_app.
  rewrite keepAlive_locked_prune. by apply range_closed.
Qed.

(** ** Runs *)

Lemma wsHandler_spec conn ev s s' :
  wsHandler conn ev s = Some s' ↔ handler_step conn ev s s'.
Proof.
  split.
  - unfold wsHandler. intros H.
    destruct ev as [|ok|[[t msg]|]| | |];
      destruct (handlers s !! conn) as [[]|] eqn:Hph; try discriminate;
      try (injection H as <-; by constructor).
    destruct (engine s) eqn:He; [discriminate|].
    injection H as <-. by constructor.
  - intros H. destruct H; unfold wsHandler;
      repeat match goal with H : _ = _ |- _ => rewrite H end; done.
Qed.

Lemma run_app acts1 acts2 s :
  run (acts1 ++ acts2) s =
  match run acts1 s with Some s1 => run acts2 s1 | None => None end.
Proof.
  revert s. induction acts1 as [|a acts1 IH]; intros s; [done|].
  cbn. destruct (step a s); [apply IH|done].
Qed.

Lemma reachable_init : reachable init.
Proof. by exists []. Qed.

Lemma reachable_step s a s' : reachable s → step a s = Some s' → reachable s'.
Proof.
  intros [acts Hacts] Hstep. exists (acts ++ [a]).
  rewrite run_app, Hacts. cbn. by rewrite Hstep.
Qed.

Lemma reachable_run s acts s' :
  reachable s → run acts s = Some s' → reachable s'.
Proof.
  intros [acts0 Hacts0] Hrun. exists (acts0 ++ acts).
  by rewrite run_app, Hacts0.
Qed.

(** Induction over the runs of the program. *)
Lemma reachable_invariant (P : State → Prop) :
  P init →
  (∀ s a s', reachable s → P s → step a s = Some s' → P s') →
  ∀ s, reachable s → P s.
Proof.
  intros Hinit Hstep s [acts Hacts]. revert s Hacts.
  induction acts as [|a acts IH] using rev_ind; intros s Hacts.
  - cbn in Hacts. by injection Hacts as <-.
  - rewrite run_app in Hacts.
    destruct (run acts init) as [s1|] eqn:Hrun; [|done].
    cbn in Hacts. destruct (step a s1) as [s2|] eqn:Hs; [|done].
    injection Hacts as <-. eapply Hstep; [by exists acts|by apply IH|done].
Qed.

Lemma run_invariant (P : State → Prop) :
  (∀ s a s', P s → step a s = Some s' → P s') →
  ∀ acts s s', P s → run acts s = Some s' → P s'.
Proof.
  intros Hstep acts. induction acts as [|a acts IH]; intros s s' Hs Hrun.
  - cbn in Hrun. by injection Hrun as <-.
  - cbn in Hrun. destruct (step a s) as [s1|] eqn:Hs1; [|done].
    eapply IH; [|done]. by eapply Hstep.
Qed.

(** ** The effect of the hub operations on one connection *)

Lemma registered_add c c0 h : registered c (add c0 h) ↔ c = c0 ∨ registered c h.
Proof.
  unfold registered, add. cbn. rewrite lookup_insert.
  case_decide; subst.
  - split; eauto.
  - split; [by right|by intros [?|?]].
Qed.

Lemma registered_remove c c0 h :
  registered c (remove c0 h) ↔ c ≠ c0 ∧ registered c h.
Proof.
  unfold registered, remove. cbn. rewrite lookup_delete.
  case_decide; subst.
  - split; [by intros [? ?]|by intros [? _]].
  - split; [done|by intros [_ ?]].
Qed.

Lemma close_count_Close c c0 h :
  close_count c (Close c0 h) =
  close_count c h + (if decide (c0 = c) then 1 else 0).
Proof.
  unfold close_count, Close. cbn.
  rewrite filter_app, length_app. f_equal.
  rewrite filter_cons, filter_nil. by case_decide.
Qed.

Lemma registered_Close c c0 h : registered c (Close c0 h) ↔ registered c h.
Proof. done. Qed.

Lemma registered_WriteMessage c c0 t data ok src h :
  registered c (WriteMessage c0 t data ok src h) ↔ registered c h.
Proof. done. Qed.

Lemma close_count_add c c0 h : close_count c (add c0 h) = close_count c h.
Proof. done. Qed.

Lemma close_count_remove c c0 h :
  close_count c (remove c0 h) = close_count c h.
Proof. done. Qed.

Lemma close_count_WriteMessage c c0 t data ok src h :
  close_count c (WriteMessage c0 t data ok src h) = close_count c h.
Proof. done. Qed.

Ltac hub_simpl :=
  rewrite ?registered_add, ?registered_remove, ?registered_Close,
    ?registered_WriteMessage, ?close_count_Close, ?close_count_add,
    ?close_count_remove, ?close_count_WriteMessage.

Lemma not_registered_None c h : ¬ registered c h ↔ clients h !! c = None.
Proof. unfold registered. by rewrite eq_None_not_Some. Qed.

(** One traversal either leaves a connection alone or, if it was
    registered, closes it once and deletes it. *)
Lemma traversal_effect elig t data src wr order h c :
  NoDup order →
  let h' := range_clients (prune_body elig t data src wr) order h in
  (clients h' !! c = clients h !! c ∧ close_count c h' = close_count c h) ∨
  (registered c h ∧ clients h' !! c = None ∧
   close_count c h' = S (close_count c h)).
Proof.
  intros Hnd h'. unfold close_count. subst h'.
  rewrite range_closed, filter_app, length_app by done.
  rewrite (filter_eq_NoDup (pruned elig wr h order)) by by apply NoDup_pruned.
  destruct (decide (c ∈ pruned elig wr h order)) as [Hin|Hnin].
  - right. apply elem_of_pruned in Hin as (Hin & He & Hreg & Hw).
    split; [done|]. split; [by apply range_lookup_pruned|cbn; lia].
  - left. split; [|cbn; lia].
    rewrite elem_of_pruned in Hnin.
    destruct (decide (registered c h)) as [Hreg|Hreg].
    + apply range_lookup_kept.
      destruct (decide (c ∈ order)); [|by left].
      destruct (elig c) eqn:He; [|by right; left].
      destruct (wr c) eqn:Hw; [by right; right|]. exfalso. by apply Hnin.
    + apply not_registered_None in Hreg. rewrite Hreg.
      by apply range_lookup_None.
Qed.

Lemma broadcast_effect data order wr h c :
  NoDup order →
  let h' := broadcast_locked data order wr h in
  (clients h' !! c = clients h !! c ∧ close_count c h' = close_count c h) ∨
  (registered c h ∧ clients h' !! c = None ∧
   close_count c h' = S (close_count c h)).
Proof. rewrite broadcast_locked_prune. apply traversal_effect. Qed.

Lemma keepAlive_effect order wr h c :
  NoDup order →
  let h' := keepAlive_locked order wr h in
  (clients h' !! c = clients h !! c ∧ close_count c h' = close_count c h) ∨
  (registered c h ∧ clients h' !! c = None ∧
   close_count c h' = S (close_count c h)).
Proof. rewrite keepAlive_locked_prune. apply traversal_effect. Qed.

(** ** The lifecycle invariant *)

Ltac simpl_state :=
  unfold set_phase, set_hub; cbn [hub handlers engine inbox].

Lemma lifecycle_traversal s h' hs' eng' c :
  (clients h' !! c = clients (hub s) !! c ∧
   close_count c h' = close_count c (hub s)) ∨
  (registered c (hub s) ∧ clients h' !! c = None ∧
   close_count c h' = S (close_count c (hub s))) →
  hs' = handlers s →
  lifecycle_ok s c →
  lifecycle_ok (mkState h' eng' hs' (inbox s)) c.
Proof.
  intros Heff -> Hok. unfold lifecycle_ok, registered in *. cbn.
  destruct Heff as [[Hcl Hcc]|(Hreg & Hcl & Hcc)]; rewrite Hcl, Hcc.
  - done.
  - unfold registered in Hreg.
    destruct (handlers s !! c) as [[]|]; try (exfalso; tauto);
      (destruct Hok as [[_ ->]|[? _]]; [right|done]);
      (split; [by intros [? ?]|done]).
Qed.

Lemma lifecycle_step s a s' :
  (∀ c, lifecycle_ok s c) → step a s = Some s' → ∀ c, lifecycle_ok s' c.
Proof.
  intros Hok Hstep c. specialize (Hok c).
  destruct a as [c0| |c0 ev|order wr|order wr]; cbn in Hstep.
  - destruct (handlers s !! c0) eqn:Hph; [done|]. injection Hstep as <-.
    unfold lifecycle_ok in *. cbn.
    destruct (decide (c = c0)) as [->|Hne].
    + rewrite lookup_insert_eq. by rewrite Hph in Hok.
    + by rewrite lookup_insert_ne.
  - by injection Hstep as <-.
  - apply wsHandler_spec in Hstep.
    destruct (decide (c = c0)) as [->|Hne].
    + unfold lifecycle_ok in *.
      destruct Hstep as [s Hph|s ok Hph|s t msg Hph|s Hph|s msg seq Hph He
                        |s Hph|s Hph];
        simpl_state; rewrite lookup_insert_eq; rewrite Hph in Hok;
        hub_simpl; try (destruct ok); try done.
      * left. split; [by left|]. by destruct Hok.
      * destruct Hok as [[_ ->]|[_ ->]]; (split; [by intros [? _]|lia]).
      * rewrite decide_True by done. destruct Hok as [? ?]. split; [done|lia].
    + unfold lifecycle_ok in *.
      destruct Hstep; simpl_state; rewrite lookup_insert_ne by done;
        destruct (handlers s !! c) as [[]|]; hub_simpl;
        rewrite ?decide_False by done; rewrite ?Nat.add_0_r; tauto.
  - unfold handleBroadcast in Hstep.
    destruct (engine s) as [data|]; [|done].
    case_decide as Hord; [|done]. injection Hstep as <-.
    apply lifecycle_traversal; [|done..].
    apply broadcast_effect, Hord.
  - unfold keepAlive in Hstep.
    case_decide as Hord; [|done]. injection Hstep as <-.
    apply (lifecycle_traversal s _ _ (engine s)); [|done..].
    apply keepAlive_effect, Hord.
Qed.

Lemma lifecycle_reachable s c : reachable s → lifecycle_ok s c.
Proof.
  intros Hs. revert c. induction Hs using reachable_invariant.
  - intros c. unfold lifecycle_ok, registered, close_count. cbn.
    rewrite !lookup_empty. split; [by intros [? ?]|done].
  - by eapply lifecycle_step.
Qed.

(** ** C1: how often a connection is closed *)

Lemma finished_step c k s a s' :
  finished c k s → step a s = Some s' → finished c k s'.
Proof.
  intros (Hph & Hreg & Hk) Hstep. unfold finished.
  destruct a as [c0| |c0 ev|order wr|order wr]; cbn in Hstep.
  - destruct (handlers s !! c0) eqn:Hph0; [done|]. injection Hstep as <-.
    simpl_state. rewrite lookup_insert_ne by congruence. done.
  - by injection Hstep as <-.
  - apply wsHandler_spec in Hstep.
    assert (c ≠ c0) as Hne.
    { intros ->. destruct Hstep; congruence. }
    destruct Hstep; simpl_state; rewrite lookup_insert_ne by done;
      hub_simpl; rewrite ?decide_False by done; rewrite ?Nat.add_0_r; tauto.
  - unfold handleBroadcast in Hstep.
    destruct (engine s) as [data|]; [|done].
    case_decide as Hord; [|done]. injection Hstep as <-. cbn.
    destruct (broadcast_effect data order wr (hub s) c (proj1 Hord))
      as [[Hcl Hcc]|(? & _)]; [|done].
    unfold registered. rewrite Hcl, Hcc. done.
  - unfold keepAlive in Hstep.
    case_decide as Hord; [|done]. injection Hstep as <-. simpl_state.
    destruct (keepAlive_effect order wr (hub s) c (proj1 Hord))
      as [[Hcl Hcc]|(? & _)]; [|done].
    unfold registered. rewrite Hcl, Hcc. done.
Qed.

(** C1, as stated, fails: on the run [double_close_run] the broadcaster
    closes connection 2 after a failed write and the deferred cleanup of
    its handler closes it a second time. *)
Lemma cleanup_twice :
  ∃ s, run double_close_run init = Some s ∧
       handlers s !! 2 = Some Done ∧
       close_count 2 (hub s) = 2 ∧
       ¬ (∀ s' c, reachable s' → handlers s' !! c = Some Done →
            close_count c (hub s') = 1).
Proof.
  eexists. split; [vm_compute; reflexivity|].
  split; [vm_compute; reflexivity|]. split; [vm_compute; reflexivity|].
  intros Hone.
  specialize (Hone _ 2 (ex_intro _ double_close_run eq_refl) eq_refl).
  vm_compute in Hone. discriminate.
Qed.

(** C1 (amended): once the handler of a connection has returned, the
    connection is not in the registry and [Close] has been called on it
    once or twice; that state is final: along every continuation of the run
    the connection stays out of the registry and is not closed again. *)
Theorem cleanup_once_or_twice s c :
  reachable s →
  handlers s !! c = Some Done →
  ¬ registered c (hub s) ∧
  1 ≤ close_count c (hub s) ≤ 2 ∧
  ∀ acts s', run acts s = Some s' →
    finished c (close_count c (hub s)) s'.
Proof.
  intros Hs Hdone. pose proof (lifecycle_reachable s c Hs) as Hok.
  unfold lifecycle_ok in Hok. rewrite Hdone in Hok. destruct Hok as [Hreg Hk].
  split; [done|]. split; [done|].
  intros acts s' Hrun.
  eapply (run_invariant (finished c (close_count c (hub s))));
    [by apply finished_step| |done].
  done.
Qed.

Lemma cleanup_once_or_twice_witness :
  ∃ s, run double_close_run init = Some s ∧
       ¬ registered 2 (hub s) ∧ 1 ≤ close_count 2 (hub s) ≤ 2.
Proof.
  eexists. split; [vm_compute; reflexivity|].
  pose proof (cleanup_once_or_twice _ 2
                (ex_intro _ double_close_run eq_refl) eq_refl) as (H1 & H2 & _).
  split; [exact H1|exact H2].
Defined.

(** ** The writes on the wire *)

Lemma broadcast_wire data order wr h :
  NoDup order →
  wire (broadcast_locked data order wr h) =
  wire h ++ (text_frame data wr <$> visited (not_sender data) h order).
Proof. intros Hnd. rewrite broadcast_locked_prune. by apply range_wire. Qed.

Lemma keepAlive_wire order wr h :
  NoDup order →
  wire (keepAlive_locked order wr h) =
  wire h ++ (ping_frame wr <$> visited everyone h order).
Proof. intros Hnd. rewrite keepAlive_locked_prune. by apply range_wire. Qed.

Lemma write_ok_grow log more w : write_ok log w → write_ok (log ++ more) w.
Proof.
  unfold write_ok. destruct (w_src w); [done..|].
  intros (? & ? & Hl). split_and!; [done..|]. by apply lookup_app_l_Some.
Qed.

Lemma text_frames_ok log data wr (l : list Conn) :
  log !! env_seq data = Some (sender data, message data) →
  Forall (λ c, not_sender data c = true) l →
  Forall (write_ok log) (text_frame data wr <$> l).
Proof.
  intros Hlog Hl. apply Forall_fmap. eapply Forall_impl; [done|].
  intros c Hc. apply not_sender_true in Hc. by unfold write_ok; cbn.
Qed.

Lemma ping_frames_ok log wr (l : list Conn) :
  Forall (write_ok log) (ping_frame wr <$> l).
Proof. apply Forall_fmap, Forall_true. intros c. by unfold write_ok; cbn. Qed.

Lemma visited_elig elig h order :
  Forall (λ c, elig c = true) (visited elig h order).
Proof.
  apply Forall_forall. intros c Hc. by apply elem_of_visited in Hc as (_ & ? & _).
Qed.

Lemma wire_ok_step s a s' : wire_ok s → step a s = Some s' → wire_ok s'.
Proof.
  intros (Hw & He & Hs) Hstep. unfold wire_ok.
  destruct a as [c0| |c0 ev|order wr|order wr]; cbn in Hstep.
  - destruct (handlers s !! c0) eqn:Hph0; [done|]. injection Hstep as <-.
    simpl_state. split_and!; [done..|].
    intros c msg seq Hc. apply (Hs c msg seq).
    rewrite lookup_insert in Hc. by case_decide.
  - by injection Hstep as <-.
  - apply wsHandler_spec in Hstep.
    destruct Hstep as [s Hph|s ok Hph|s t msg Hph|s Hph|s msg seq Hph Hen
                      |s Hph|s Hph]; simpl_state.
    all: try (split_and!; [done..|];
              intros c m k Hc; apply (Hs c m k);
              rewrite lookup_insert in Hc; by case_decide).
    + split_and!; [|done|].
      * cbn. apply Forall_app. split; [done|].
        constructor; [|done]. by unfold write_ok; cbn.
      * intros c m k Hc. apply (Hs c m k).
        rewrite lookup_insert in Hc. case_decide; [by destruct ok|done].
    + split_and!.
      * eapply Forall_impl; [exact Hw|]. intros w. apply write_ok_grow.
      * intros data Hd. by apply lookup_app_l_Some, He.
      * intros c m k Hc. rewrite lookup_insert in Hc. case_decide.
        -- injection Hc as <- <-. subst c.
           rewrite lookup_app_r by done. by rewrite Nat.sub_diag.
        -- by apply lookup_app_l_Some, (Hs c m k).
    + split_and!; [done| |].
      * intros data [= <-]. cbn. by apply (Hs c0).
      * intros c m k Hc. apply (Hs c m k).
        rewrite lookup_insert in Hc. by case_decide.
  - unfold handleBroadcast in Hstep.
    destruct (engine s) as [data|] eqn:Hen; [|done].
    case_decide as Hord; [|done]. injection Hstep as <-. cbn.
    split_and!; [|done..].
    rewrite broadcast_wire by apply Hord. apply Forall_app. split; [done|].
    apply text_frames_ok; [by apply He|apply visited_elig].
  - unfold keepAlive in Hstep.
    case_decide as Hord; [|done]. injection Hstep as <-. simpl_state.
    split_and!; [|done..].
    rewrite keepAlive_wire by apply Hord. apply Forall_app. split; [done|].
    apply ping_frames_ok.
Qed.

Lemma wire_ok_reachable s : reachable s → wire_ok s.
Proof.
  intros Hs. induction Hs using reachable_invariant.
  - unfold wire_ok. cbn. split_and!; [constructor|done|].
    intros c msg seq Hc. by rewrite lookup_empty in Hc.
  - by eapply wire_ok_step.
Qed.

(** ** The welcome message *)

Lemma welcomes_app c h h' ws :
  wire h' = wire h ++ ws →
  Forall (λ w, w_src w ≠ FromWelcome) ws →
  welcomes c h' = welcomes c h.
Proof.
  intros Hw Hws. unfold welcomes. rewrite Hw, filter_app. clear Hw.
  assert (filter (λ w, w_to w = c ∧ w_src w = FromWelcome) ws = []) as ->;
    [|by rewrite app_nil_r].
  induction Hws as [|w ws Hsrc _ IH]; [done|].
  rewrite filter_cons, decide_False by (by intros [_ ?]). done.
Qed.

Lemma welcomes_broadcast c data order wr h :
  NoDup order → welcomes c (broadcast_locked data order wr h) = welcomes c h.
Proof.
  intros Hnd. eapply welcomes_app; [by apply broadcast_wire|].
  by apply Forall_fmap, Forall_true.
Qed.

Lemma welcomes_keepAlive c order wr h :
  NoDup order → welcomes c (keepAlive_locked order wr h) = welcomes c h.
Proof.
  intros Hnd. eapply welcomes_app; [by apply keepAlive_wire|].
  by apply Forall_fmap, Forall_true.
Qed.

Lemma welcomes_WriteMessage c c0 ok h :
  welcomes c (WriteMessage c0 TextMessage welcome ok FromWelcome h) =
  welcomes c h ++
  (if decide (c0 = c) then [mkWrite c0 TextMessage welcome ok FromWelcome]
   else []).
Proof.
  unfold welcomes, WriteMessage. cbn. rewrite filter_app. f_equal.
  rewrite filter_cons, filter_nil. cbn.
  destruct (decide (c0 = c)) as [->|Hne].
  - by rewrite decide_True.
  - by rewrite decide_False by (by intros [? _]).
Qed.

Lemma welcome_ok_step s a s' :
  (∀ c, welcome_ok s c) → step a s = Some s' → ∀ c, welcome_ok s' c.
Proof.
  intros Hok Hstep c. specialize (Hok c). unfold welcome_ok in *.
  destruct a as [c0| |c0 ev|order wr|order wr]; cbn in Hstep.
  - destruct (handlers s !! c0) eqn:Hph0; [done|]. injection Hstep as <-.
    simpl_state. rewrite lookup_insert. case_decide; [subst|done].
    by rewrite Hph0 in Hok.
  - by injection Hstep as <-.
  - apply wsHandler_spec in Hstep.
    destruct (decide (c0 = c)) as [->|Hne].
    + destruct Hstep as [s Hph|s ok Hph|s t msg Hph|s Hph|s msg seq Hph Hen
                        |s Hph|s Hph];
        simpl_state; rewrite lookup_insert_eq; rewrite Hph in Hok;
        try done.
      rewrite welcomes_WriteMessage, decide_True, Hok by done.
      destruct ok; by eexists.
    + destruct Hstep; simpl_state; rewrite lookup_insert_ne by done;
        try done.
      by rewrite welcomes_WriteMessage, decide_False, app_nil_r.
  - unfold handleBroadcast in Hstep.
    destruct (engine s) as [data|] eqn:Hen; [|done].
    case_decide as Hord; [|done]. injection Hstep as <-. cbn.
    by rewrite welcomes_broadcast by apply Hord.
  - unfold keepAlive in Hstep.
    case_decide as Hord; [|done]. injection Hstep as <-. simpl_state.
    by rewrite welcomes_keepAlive by apply Hord.
Qed.

Lemma welcome_ok_reachable s c : reachable s → welcome_ok s c.
Proof.
  intros Hs. revert c. induction Hs using reachable_invariant.
  - intros c. unfold welcome_ok. cbn. by rewrite lookup_empty.
  - by eapply welcome_ok_step.
Qed.

(** ** The order of the broadcast writes *)

Lemma below_app a k ws new :
  below a k (ws ++ new) ↔ below a k ws ∧ below a k new.
Proof.
  unfold below. split.
  - intros H. split; intros w n Hw; apply H, elem_of_app; eauto.
  - intros [H1 H2] w n [Hw|Hw]%elem_of_app; eauto.
Qed.

Lemma below_mono a k k' ws : k ≤ k' → below a k ws → below a k' ws.
Proof. intros Hk H w n Hw Hn. specialize (H w n Hw Hn). lia. Qed.

Lemma below_none a k ws :
  Forall (λ w, seq_from a w = None) ws → below a k ws.
Proof.
  intros H w n Hw Hn. rewrite Forall_forall in H.
  specialize (H w Hw). congruence.
Qed.

Lemma ordered_app a ws new :
  ordered a ws → ordered a new →
  (∀ w1 w2 n1 n2, w1 ∈ ws → w2 ∈ new →
     seq_from a w1 = Some n1 → seq_from a w2 = Some n2 → n1 ≤ n2) →
  ordered a (ws ++ new).
Proof.
  intros Hws Hnew Hcross i j w1 w2 n1 n2 Hi Hj H1 H2 Hij.
  apply lookup_app_Some in Hi as [Hi|[Hil Hi]];
    apply lookup_app_Some in Hj as [Hj|[Hjl Hj]].
  - exact (Hws i j w1 w2 n1 n2 Hi Hj H1 H2 Hij).
  - apply (Hcross w1 w2); [| |done..]; apply list_elem_of_lookup; eauto.
  - apply lookup_lt_Some in Hj. lia.
  - apply (Hnew _ _ w1 w2 n1 n2 Hi Hj H1 H2). lia.
Qed.

Lemma ordered_app_none a ws new :
  ordered a ws → Forall (λ w, seq_from a w = None) new →
  ordered a (ws ++ new).
Proof.
  intros Hws Hnone. rewrite Forall_forall in Hnone.
  apply ordered_app; [done| |].
  - intros i j w1 w2 n1 n2 Hi _ H1 _ _.
    assert (w1 ∈ new) as Hin by (apply list_elem_of_lookup; eauto).
    specialize (Hnone w1 Hin). congruence.
  - intros w1 w2 n1 n2 _ Hin _ H2. specialize (Hnone w2 Hin). congruence.
Qed.

Lemma seq_from_text_frame a data wr c :
  seq_from a (text_frame data wr c) =
  if decide (sender data = a) then Some (env_seq data) else None.
Proof. done. Qed.

Lemma ordered_text_frames a data wr (l : list Conn) :
  ordered a (text_frame data wr <$> l).
Proof.
  intros i j w1 w2 n1 n2 Hi Hj H1 H2 _.
  apply list_lookup_fmap_Some in Hi as (c1 & -> & _).
  apply list_lookup_fmap_Some in Hj as (c2 & -> & _).
  rewrite seq_from_text_frame in H1, H2.
  case_decide; [|done]. injection H1 as <-. injection H2 as <-. done.
Qed.

Lemma below_text_frames a k data wr (l : list Conn) :
  (sender data = a → env_seq data < k) →
  below a k (text_frame data wr <$> l).
Proof.
  intros Hk w n Hw Hn. apply list_elem_of_fmap in Hw as (c & -> & _).
  rewrite seq_from_text_frame in Hn. case_decide; [|done].
  injection Hn as <-. by apply Hk.
Qed.

Lemma ping_frames_none a wr (l : list Conn) :
  Forall (λ w, seq_from a w = None) (ping_frame wr <$> l).
Proof. by apply Forall_fmap, Forall_true. Qed.

Ltac other_handler Hc :=
  let a := fresh "a" in let m := fresh "m" in let k := fresh "k" in
  let Hk := fresh "Hk" in
  intros a m k Hk; rewrite lookup_insert in Hk;
  case_decide; [try done|]; try exact (Hc a m k Hk).

Lemma fifo_ok_step s a s' : fifo_ok s → step a s = Some s' → fifo_ok s'.
Proof.
  intros (Ha & Hb & Hc & Ho) Hstep. unfold fifo_ok.
  destruct a as [c0| |c0 ev|order wr|order wr]; cbn in Hstep.
  - destruct (handlers s !! c0) eqn:Hph0; [done|]. injection Hstep as <-.
    simpl_state. split_and!; [done..| |done]. other_handler Hc.
  - by injection Hstep as <-.
  - apply wsHandler_spec in Hstep.
    destruct Hstep as [s Hph|s ok Hph|s t msg Hph|s Hph|s msg seq Hph Hen
                      |s Hph|s Hph]; simpl_state.
    + split_and!; [done..| |done]. other_handler Hc.
    + assert (Forall (λ w, seq_from c0 w = None ∧ ∀ a, seq_from a w = None)
                [mkWrite c0 TextMessage welcome ok FromWelcome]) as Hnone.
      { by repeat constructor. }
      assert (∀ a, Forall (λ w, seq_from a w = None)
                     [mkWrite c0 TextMessage welcome ok FromWelcome])
        as Hnone' by (intros a; by repeat constructor).
      cbn [wire WriteMessage]. split_and!.
      * intros a. apply below_app. split; [done|by apply below_none].
      * intros data Hd. destruct (Hb data Hd) as [? ?].
        split; [done|]. apply below_app. split; [done|by apply below_none].
      * intros a m k Hk. rewrite lookup_insert in Hk.
        case_decide; [by destruct ok|].
        destruct (Hc a m k Hk) as (? & ? & ?). split_and!; [done| |done].
        apply below_app. split; [done|by apply below_none].
      * intros a. by apply ordered_app_none.
    + cbn [hub]. rewrite length_app. cbn [length]. split_and!.
      * intros a. eapply below_mono; [|apply Ha]. lia.
      * intros data Hd. destruct (Hb data Hd) as [? ?]. split; [lia|done].
      * intros a m k Hk. rewrite lookup_insert in Hk. case_decide.
        -- injection Hk as <- <-. subst a. split_and!; [lia|done|].
           intros data Hd _. by apply Hb.
        -- destruct (Hc a m k Hk) as (? & ? & ?). split_and!; [lia|done..].
      * done.
    + split_and!; [done..| |done]. other_handler Hc.
    + destruct (Hc c0 msg seq Hph) as (Hlt & Hbel & _).
      cbn [hub]. split_and!; [done| | |done].
      * by intros data [= <-].
      * intros a m k Hk. rewrite lookup_insert in Hk. case_decide; [done|].
        destruct (Hc a m k Hk) as (? & ? & ?). split_and!; [done..|].
        intros data [= <-] Hsend. cbn in Hsend. done.
    + split_and!; [done..| |done]. other_handler Hc.
    + split_and!; [done..| |done]. other_handler Hc.
  - unfold handleBroadcast in Hstep.
    destruct (engine s) as [data|] eqn:Hen; [|done].
    case_decide as Hord; [|done]. injection Hstep as <-. cbn.
    rewrite broadcast_wire by apply Hord.
    destruct (Hb data eq_refl) as [Hlt Hbel].
    split_and!.
    + intros a. apply below_app. split; [done|].
      by apply below_text_frames.
    + done.
    + intros a m k Hk. destruct (Hc a m k Hk) as (? & ? & Heng).
      split_and!; [done| |done].
      apply below_app. split; [done|].
      apply below_text_frames. intros Hsend. by apply Heng.
    + intros a. apply ordered_app; [done|apply ordered_text_frames|].
      intros w1 w2 n1 n2 Hw1 Hw2 H1 H2.
      apply list_elem_of_fmap in Hw2 as (c & -> & _).
      rewrite seq_from_text_frame in H2. case_decide; [subst a|done].
      injection H2 as <-. specialize (Hbel w1 n1 Hw1 H1). lia.
  - unfold keepAlive in Hstep.
    case_decide as Hord; [|done]. injection Hstep as <-. simpl_state.
    rewrite keepAlive_wire by apply Hord.
    split_and!.
    + intros a. apply below_app. split; [done|].
      apply below_none, ping_frames_none.
    + intros data Hd. destruct (Hb data Hd) as [? ?]. split; [done|].
      apply below_app. split; [done|]. apply below_none, ping_frames_none.
    + intros a m k Hk. destruct (Hc a m k Hk) as (? & ? & ?).
      split_and!; [done| |done].
      apply below_app. split; [done|]. apply below_none, ping_frames_none.
    + intros a. apply ordered_app_none; [done|apply ping_frames_none].
Qed.

Lemma fifo_ok_reachable s : reachable s → fifo_ok s.
Proof.
  intros Hs. induction Hs using reachable_invariant.
  - unfold fifo_ok. cbn. split_and!.
    + intros a w n Hw. by apply elem_of_nil in Hw.
    + done.
    + intros a m k Hk. by rewrite lookup_empty in Hk.
    + intros a i j w1 w2 n1 n2 Hi. by rewrite lookup_nil in Hi.
  - by eapply fifo_ok_step.
Qed.

(** ** What each connection sees of one traversal *)

Lemma range_lookup elig t data src wr order h c :
  clients (range_clients (prune_body elig t data src wr) order h) !! c =
  if decide (c ∈ pruned elig wr h order) then None else clients h !! c.
Proof.
  destruct (decide (c ∈ pruned elig wr h order)) as [Hin|Hnin].
  - apply elem_of_pruned in Hin as (Hin & He & Hreg & Hw).
    by apply range_lookup_pruned.
  - rewrite elem_of_pruned in Hnin.
    destruct (decide (is_Some (clients h !! c))) as [Hreg|Hreg].
    + apply range_lookup_kept.
      destruct (decide (c ∈ order)); [|by left].
      destruct (elig c) eqn:He; [|by right; left].
      destruct (wr c) eqn:Hw; [by right; right|]. exfalso. by apply Hnin.
    + apply eq_None_not_Some in Hreg. rewrite Hreg.
      by apply range_lookup_None.
Qed.

Lemma visited_range_order elig h order :
  range_order (clients h) order →
  visited elig h order = filter (λ c, elig c = true) order.
Proof.
  intros Hord. apply filter_ext_elem. intros c Hc.
  apply (range_order_elem _ _ c) in Hord. tauto.
Qed.

Lemma filter_eq_length {A} `{EqDecision A} (l : list A) (x : A) :
  NoDup l → x ∈ l → length (filter (λ y, y ≠ x) l) = length l - 1.
Proof.
  intros Hnd Hin.
  pose proof (filter_app_complement (λ y, y = x) l) as Hp.
  apply Permutation_length in Hp. rewrite length_app in Hp.
  rewrite filter_eq_NoDup, decide_True in Hp by done. cbn in Hp.
  unfold not in *. lia.
Qed.

Lemma broadcast_writes_to data order wr h c :
  range_order (clients h) order →
  writes_to c (new_writes h (broadcast_locked data order wr h)) =
  if decide (registered c h ∧ c ≠ sender data)
  then [text_frame data wr c] else [].
Proof.
  intros Hord. pose proof Hord as [Hnd _].
  rewrite broadcast_new_writes, writes_to_fmap by done.
  rewrite filter_eq_NoDup by by apply NoDup_visited.
  apply (range_order_elem _ _ c) in Hord.
  destruct (decide (c ∈ visited (not_sender data) h order)) as [Hin|Hnin].
  - apply elem_of_visited in Hin as (? & ?%not_sender_true & ?).
    by rewrite decide_True.
  - rewrite decide_False; [done|]. intros [Hreg Hne]. apply Hnin.
    apply elem_of_visited. rewrite not_sender_true. unfold registered in Hreg.
    tauto.
Qed.

Lemma keepAlive_writes_to order wr h c :
  range_order (clients h) order →
  writes_to c (new_writes h (keepAlive_locked order wr h)) =
  if decide (registered c h) then [ping_frame wr c] else [].
Proof.
  intros Hord. pose proof Hord as [Hnd _].
  rewrite keepAlive_new_writes, writes_to_fmap by done.
  rewrite filter_eq_NoDup by by apply NoDup_visited.
  apply (range_order_elem _ _ c) in Hord.
  destruct (decide (c ∈ visited everyone h order)) as [Hin|Hnin].
  - apply elem_of_visited in Hin as (? & ? & ?). by rewrite decide_True.
  - rewrite decide_False; [done|]. intros Hreg. apply Hnin.
    apply elem_of_visited. unfold registered in Hreg. tauto.
Qed.

(** ** C2 *)

(** C2 (no self-delivery): whatever the iteration order and the outcome of
    the writes, the traversal of [handleBroadcast] for an envelope writes
    only to connections that are registered and differ from the sender of
    the envelope; no write of the envelope is addressed to its sender. *)
Theorem no_self_delivery data order wr h :
  Forall (λ w, w_to w ≠ sender data ∧ registered (w_to w) h)
    (new_writes h (broadcast_locked data order wr h)) ∧
  writes_to (sender data) (new_writes h (broadcast_locked data order wr h))
    = [].
Proof.
  rewrite broadcast_locked_prune.
  destruct (range_wire_any (not_sender data) TextMessage (message data)
              (FromEnvelope (sender data) (env_seq data)) wr order h)
    as (l & Hw & Hl).
  rewrite (new_writes_app _ _ _ Hw).
  assert (Forall (λ w, w_to w ≠ sender data ∧ registered (w_to w) h)
            ((λ c, mkWrite c TextMessage (message data) (wr c)
                     (FromEnvelope (sender data) (env_seq data))) <$> l))
    as Hall.
  { apply Forall_fmap. eapply Forall_impl; [exact Hl|].
    intros c (He & _ & Hreg). apply not_sender_true in He. by cbn. }
  split; [done|].
  apply writes_to_none. eapply Forall_impl; [exact Hall|]. by intros w [? _].
Qed.

(** The scenario of the specification: three connections open, connection
    1 sends "hello"; 2 and 3 receive it, 1 receives nothing. *)
Example hello_scenario :
  ∃ s', handleBroadcast [3; 1; 2] all_ok (after hello_run) = Some s' ∧
        new_writes (hub (after hello_run)) (hub s') =
        [mkWrite 3 TextMessage hello true (FromEnvelope 1 0);
         mkWrite 2 TextMessage hello true (FromEnvelope 1 0)].
Proof. eexists. split; vm_compute; reflexivity. Qed.

(** ** C10 *)

(** C10: the frame type returned by [ReadMessage] is dropped by the reader
    loop, and every write of the traversal of [handleBroadcast] is a text
    frame carrying the bytes of the envelope; a "hello" received in a
    binary frame reaches connection 2 as a text frame. *)
Theorem broadcast_always_text :
  (∀ conn t1 t2 msg s,
     wsHandler conn (EvRead (Some (t1, msg))) s =
     wsHandler conn (EvRead (Some (t2, msg))) s) ∧
  (∀ data order wr h,
     Forall (λ w, w_type w = TextMessage ∧ w_data w = message data)
       (new_writes h (broadcast_locked data order wr h))) ∧
  writes_to 2 (wire (hub (after binary_run))) =
    [mkWrite 2 TextMessage welcome true FromWelcome;
     mkWrite 2 TextMessage hello true (FromEnvelope 1 0)].
Proof.
  split_and!.
  - intros conn t1 t2 msg s. unfold wsHandler.
    by destruct (handlers s !! conn) as [[]|].
  - intros data order wr h. rewrite broadcast_locked_prune.
    destruct (range_wire_any (not_sender data) TextMessage (message data)
                (FromEnvelope (sender data) (env_seq data)) wr order h)
      as (l & Hw & _).
    rewrite (new_writes_app _ _ _ Hw). by apply Forall_fmap, Forall_true.
  - vm_compute. reflexivity.
Qed.

(** ** C3 *)

Lemma pruned_all_ok elig wr h order :
  (∀ c, wr c = true) → pruned elig wr h order = [].
Proof.
  intros Hwr. unfold pruned.
  induction (visited elig h order) as [|c l IH]; [done|].
  rewrite filter_cons, decide_False; [done|]. by rewrite Hwr.
Qed.

Lemma hub_eq h h' :
  clients h' = clients h → closed h' = closed h → wire h' = wire h → h' = h.
Proof. destruct h, h'. cbn. by intros -> -> ->. Qed.

(** The traversal of [handleBroadcast] when no write fails, on the hub
    alone. *)
Lemma fan_out_locked data order wr h :
  range_order (clients h) order →
  registered (sender data) h →
  (∀ c, wr c = true) →
  let h' := broadcast_locked data order wr h in
  (∀ c, registered c h → c ≠ sender data →
     writes_to c (new_writes h h') =
     [mkWrite c TextMessage (message data) true
        (FromEnvelope (sender data) (env_seq data))]) ∧
  (∀ c, ¬ registered c h ∨ c = sender data →
     writes_to c (new_writes h h') = []) ∧
  length (new_writes h h') = size (clients h) - 1 ∧
  clients h' = clients h ∧
  closed h' = closed h.
Proof.
  intros Hord Hsend Hwr h'. pose proof Hord as [Hnd _]. subst h'.
  split_and!.
  - intros c Hreg Hne. rewrite broadcast_writes_to, decide_True by done.
    unfold text_frame. by rewrite Hwr.
  - intros c Hc. rewrite broadcast_writes_to by done.
    rewrite decide_False; [done|]. tauto.
  - rewrite broadcast_new_writes, length_fmap, visited_range_order by done.
    rewrite (filter_ext_elem _ (λ c, c ≠ sender data))
      by (intros c _; apply not_sender_true).
    rewrite filter_eq_length; [by rewrite (range_order_length (clients h))|
                               done|].
    by apply (range_order_elem (clients h)).
  - apply map_eq. intros c. rewrite broadcast_locked_prune, range_lookup.
    by rewrite pruned_all_ok, decide_False by (done || apply not_elem_of_nil).
  - rewrite broadcast_locked_prune, range_closed by done.
    by rewrite pruned_all_ok, app_nil_r.
Qed.

(** C3 (fan-out completeness): let the broadcaster hold the envelope
    [data] of a registered sender, let [order] be an order that [range] can
    produce on the registry, and let no write fail.  Then the iteration of
    [handleBroadcast] takes place and consumes the envelope; in it every
    registered connection other than the sender gets the message in exactly
    one write, nobody else gets a write, so the [N] registered connections
    account for [N - 1] writes; the registry is left as it was and nothing
    is closed. *)
Theorem fan_out_complete s order wr data :
  engine s = Some data →
  range_order (clients (hub s)) order →
  registered (sender data) (hub s) →
  (∀ c, wr c = true) →
  ∃ s', handleBroadcast order wr s = Some s' ∧
    engine s' = None ∧
    (∀ c, registered c (hub s) → c ≠ sender data →
       writes_to c (new_writes (hub s) (hub s')) =
       [mkWrite c TextMessage (message data) true
          (FromEnvelope (sender data) (env_seq data))]) ∧
    (∀ c, ¬ registered c (hub s) ∨ c = sender data →
       writes_to c (new_writes (hub s) (hub s')) = []) ∧
    length (new_writes (hub s) (hub s')) = size (clients (hub s)) - 1 ∧
    clients (hub s') = clients (hub s) ∧
    closed (hub s') = closed (hub s).
Proof.
  intros Hen Hord Hsend Hwr.
  exists (mkState (broadcast_locked data order wr (hub s)) None
            (handlers s) (inbox s)).
  split.
  - unfold handleBroadcast. rewrite Hen. by rewrite decide_True.
  - split; [done|]. cbn [hub]. by apply fan_out_locked.
Qed.

Lemma fan_out_complete_witness :
  ∃ s', handleBroadcast [2; 3; 1] all_ok (after hello_run) = Some s' ∧
    writes_to 2 (new_writes (hub (after hello_run)) (hub s')) =
      [mkWrite 2 TextMessage hello true (FromEnvelope 1 0)] ∧
    writes_to 3 (new_writes (hub (after hello_run)) (hub s')) =
      [mkWrite 3 TextMessage hello true (FromEnvelope 1 0)] ∧
    length (new_writes (hub (after hello_run)) (hub s')) = 2.
Proof.
  assert (engine (after hello_run) = Some hello_env) as Hen
    by (vm_compute; reflexivity).
  assert (range_order (clients (hub (after hello_run))) [2; 3; 1]) as Hord
    by (apply (bool_decide_unpack _); vm_compute; exact I).
  assert (registered 1 (hub (after hello_run))) as Hreg by (by exists true).
  destruct (fan_out_complete (after hello_run) [2; 3; 1] all_ok hello_env
              Hen Hord Hreg (λ _, eq_refl))
    as (s' & Hstep & _ & H1 & _ & H3 & _).
  exists s'. split_and!.
  - exact Hstep.
  - apply (H1 2); [by exists true|done].
  - apply (H1 3); [by exists true|done].
  - exact H3.
Defined.

(** ** C4 *)

Lemma broadcast_closes_of data order wr h c :
  range_order (clients h) order →
  filter (λ x, x = c) (new_closes h (broadcast_locked data order wr h)) =
  if decide (registered c h ∧ c ≠ sender data ∧ wr c = false)
  then [c] else [].
Proof.
  intros Hord. pose proof Hord as [Hnd _].
  rewrite broadcast_new_closes by done.
  rewrite filter_eq_NoDup by by apply NoDup_pruned.
  apply (range_order_elem _ _ c) in Hord.
  apply decide_ext. rewrite elem_of_pruned, not_sender_true.
  unfold registered. tauto.
Qed.

Lemma keepAlive_closes_of order wr h c :
  range_order (clients h) order →
  filter (λ x, x = c) (new_closes h (keepAlive_locked order wr h)) =
  if decide (registered c h ∧ wr c = false) then [c] else [].
Proof.
  intros Hord. pose proof Hord as [Hnd _].
  rewrite keepAlive_new_closes by done.
  rewrite filter_eq_NoDup by by apply NoDup_pruned.
  apply (range_order_elem _ _ c) in Hord.
  apply decide_ext. rewrite elem_of_pruned.
  unfold registered, everyone. tauto.
Qed.

Lemma broadcast_registered data order wr h c :
  range_order (clients h) order →
  registered c (broadcast_locked data order wr h) ↔
  registered c h ∧ (c = sender data ∨ wr c = true).
Proof.
  intros Hord. apply (range_order_elem _ _ c) in Hord.
  unfold registered in *. rewrite broadcast_locked_prune, range_lookup.
  case_decide as Hp; rewrite elem_of_pruned, not_sender_true in Hp.
  - split; [by intros [? ?]|].
    intros [_ [?|Hw]]; [tauto|]. destruct Hp as (_ & _ & _ & Hp). congruence.
  - split; [|tauto]. intros Hreg. split; [done|].
    destruct (decide (c = sender data)); [by left|right].
    destruct (wr c) eqn:Hw; [done|]. exfalso. apply Hp. tauto.
Qed.

Lemma keepAlive_registered order wr h c :
  range_order (clients h) order →
  registered c (keepAlive_locked order wr h) ↔ registered c h ∧ wr c = true.
Proof.
  intros Hord. apply (range_order_elem _ _ c) in Hord.
  unfold registered in *. rewrite keepAlive_locked_prune, range_lookup.
  case_decide as Hp; rewrite elem_of_pruned in Hp.
  - split; [by intros [? ?]|].
    intros [_ Hw]. destruct Hp as (_ & _ & _ & Hp). congruence.
  - split; [|tauto]. intros Hreg. split; [done|].
    destruct (wr c) eqn:Hw; [done|]. exfalso. apply Hp.
    unfold everyone. tauto.
Qed.

Lemma filter_eq_nil_not_elem {A} `{EqDecision A} (l : list A) (x : A) :
  filter (λ y, y = x) l = [] → x ∉ l.
Proof.
  intros Hf Hin.
  by apply (filter_nil_not_elem_of (λ y, y = x) l x Hf eq_refl).
Qed.

(** C4 (fault isolation): in one traversal of [handleBroadcast], every
    registered connection other than the sender gets exactly one write of
    the message, whose outcome is its own: if it succeeds the connection
    stays registered and is not closed; if it fails the connection is closed
    once and removed, and nobody else is affected.  The sender gets no
    write, stays as it was, and the state of no handler changes.  A later
    broadcast writes exactly to the connections that remain registered. *)
Theorem fault_isolation s order wr s' data :
  engine s = Some data →
  handleBroadcast order wr s = Some s' →
  (∀ c, registered c (hub s) → c ≠ sender data →
     writes_to c (new_writes (hub s) (hub s')) =
       [mkWrite c TextMessage (message data) (wr c)
          (FromEnvelope (sender data) (env_seq data))] ∧
     (wr c = true →
        registered c (hub s') ∧ c ∉ new_closes (hub s) (hub s')) ∧
     (wr c = false →
        ¬ registered c (hub s') ∧
        filter (λ x, x = c) (new_closes (hub s) (hub s')) = [c])) ∧
  ((writes_to (sender data) (new_writes (hub s) (hub s')) = []) ∧
   (clients (hub s') !! sender data = clients (hub s) !! sender data) ∧
   (sender data ∉ new_closes (hub s) (hub s')) ∧
   handlers s' = handlers s ∧ inbox s' = inbox s) ∧
  (∀ c, registered c (hub s') ↔
        registered c (hub s) ∧ (c = sender data ∨ wr c = true)) ∧
  (∀ data2 order2 wr2 c,
     range_order (clients (hub s')) order2 →
     writes_to c (new_writes (hub s')
                    (broadcast_locked data2 order2 wr2 (hub s'))) =
     if decide (registered c (hub s') ∧ c ≠ sender data2)
     then [mkWrite c TextMessage (message data2) (wr2 c)
             (FromEnvelope (sender data2) (env_seq data2))]
     else []).
Proof.
  intros Hen Hstep. unfold handleBroadcast in Hstep. rewrite Hen in Hstep.
  case_decide as Hord; [|done]. injection Hstep as <-. cbn [hub handlers inbox].
  split_and!; try done.
  - intros c Hreg Hne. split_and!.
    + by rewrite broadcast_writes_to, decide_True by done.
    + intros Hw. split.
      * apply broadcast_registered; [done|]. tauto.
      * apply filter_eq_nil_not_elem.
        rewrite broadcast_closes_of, decide_False; [done| |done].
        intros (_ & _ & ?). congruence.
    + intros Hw. split.
      * rewrite broadcast_registered by done. intros [_ [?|?]]; congruence.
      * by rewrite broadcast_closes_of, decide_True by done.
  - rewrite broadcast_writes_to by done. rewrite decide_False; [done|tauto].
  - rewrite broadcast_locked_prune, range_lookup.
    rewrite decide_False; [done|]. rewrite elem_of_pruned, not_sender_true.
    tauto.
  - apply filter_eq_nil_not_elem.
    rewrite broadcast_closes_of by done. rewrite decide_False; [done|tauto].
  - intros c. by apply broadcast_registered.
  - intros data2 order2 wr2 c Hord2. by apply broadcast_writes_to.
Qed.

Lemma fault_isolation_witness :
  ∃ s', handleBroadcast [2; 1; 4; 3] (fails_at 2) (after four_run) = Some s' ∧
    writes_to 3 (new_writes (hub (after four_run)) (hub s')) =
      [mkWrite 3 TextMessage hello true (FromEnvelope 1 0)] ∧
    writes_to 4 (new_writes (hub (after four_run)) (hub s')) =
      [mkWrite 4 TextMessage hello true (FromEnvelope 1 0)] ∧
    ¬ registered 2 (hub s') ∧
    writes_to 2 (new_writes (hub s')
                   (broadcast_locked (mkEnvelope 1 world 1) [4; 3; 1] all_ok
                      (hub s'))) = [].
Proof.
  eexists. split; [vm_compute; reflexivity|].
  match goal with
  | |- context [new_writes _ (hub ?s')] =>
      pose proof (fault_isolation (after four_run) [2; 1; 4; 3] (fails_at 2)
                    s' hello_env eq_refl eq_refl) as (Hrec & _ & _ & Hnext)
  end.
  split_and!.
  - apply (Hrec 3); [by exists true|done].
  - apply (Hrec 4); [by exists true|done].
  - apply (Hrec 2); [by exists true|done|done].
  - rewrite Hnext; [done|].
    apply (bool_decide_unpack _). vm_compute. exact I.
Defined.

(** ** C7 *)

Lemma pruned_unregistered_sender data wr h order :
  range_order (clients h) order →
  ¬ registered (sender data) h →
  pruned (not_sender data) wr h order = pruned everyone wr h order.
Proof.
  intros Hord Hsend. unfold pruned. f_equal.
  apply filter_ext_elem. intros c Hc.
  apply (range_order_elem _ _ c) in Hord. rewrite not_sender_true.
  unfold everyone. split; [tauto|]. intros [_ Hreg].
  split; [|done]. intros ->. by apply Hsend.
Qed.

(** C7 (liveness prober): the ticker of [keepAlive] has a period of 30
    seconds.  On a tick, every registered connection gets exactly one write,
    a ping frame with an empty payload, and nobody else gets one.  A
    connection whose ping write fails is closed once and removed; this is
    the pruning that a broadcast with the same write outcomes performs.  A
    connection whose ping write succeeds stays registered whatever it
    answers: the step reads nothing and leaves every handler, the envelope
    held by the broadcaster and the log of received messages as they were. *)
Theorem keepAlive_probes s order wr s' :
  keepAlive order wr s = Some s' →
  keepAlive_period = (30 * 1000000000)%Z ∧
  (∀ c, registered c (hub s) →
     writes_to c (new_writes (hub s) (hub s')) =
       [mkWrite c PingMessage [] (wr c) FromPing] ∧
     (wr c = true →
        registered c (hub s') ∧ c ∉ new_closes (hub s) (hub s')) ∧
     (wr c = false →
        ¬ registered c (hub s') ∧
        filter (λ x, x = c) (new_closes (hub s) (hub s')) = [c])) ∧
  (∀ c, ¬ registered c (hub s) →
     writes_to c (new_writes (hub s) (hub s')) = [] ∧
     ¬ registered c (hub s') ∧ c ∉ new_closes (hub s) (hub s')) ∧
  (∀ data, ¬ registered (sender data) (hub s) →
     clients (broadcast_locked data order wr (hub s)) = clients (hub s') ∧
     closed (broadcast_locked data order wr (hub s)) = closed (hub s')) ∧
  (handlers s' = handlers s ∧ inbox s' = inbox s ∧ engine s' = engine s).
Proof.
  intros Hstep. unfold keepAlive in Hstep.
  case_decide as Hord; [|done]. injection Hstep as <-.
  pose proof Hord as [Hnd _]. simpl_state.
  split_and!; try done.
  - intros c Hreg. split_and!.
    + by rewrite keepAlive_writes_to, decide_True by done.
    + intros Hw. split; [by apply keepAlive_registered|].
      apply filter_eq_nil_not_elem.
      rewrite keepAlive_closes_of, decide_False; [done| |done].
      intros [_ ?]. congruence.
    + intros Hw. split.
      * rewrite keepAlive_registered by done. intros [_ ?]. congruence.
      * by rewrite keepAlive_closes_of, decide_True by done.
  - intros c Hreg. split_and!.
    + by rewrite keepAlive_writes_to, decide_False by done.
    + rewrite keepAlive_registered by done. tauto.
    + apply filter_eq_nil_not_elem.
      rewrite keepAlive_closes_of by done. rewrite decide_False; [done|tauto].
  - intros data Hsend. split.
    + apply map_eq. intros c.
      rewrite broadcast_locked_prune, keepAlive_locked_prune, !range_lookup.
      by rewrite pruned_unregistered_sender.
    + rewrite broadcast_locked_prune, keepAlive_locked_prune.
      rewrite !range_closed by done. by rewrite pruned_unregistered_sender.
Qed.

Lemma keepAlive_probes_witness :
  ∃ s', keepAlive [3; 2; 1] (fails_at 2) (after three_open) = Some s' ∧
    writes_to 1 (new_writes (hub (after three_open)) (hub s')) =
      [mkWrite 1 PingMessage [] true FromPing] ∧
    writes_to 2 (new_writes (hub (after three_open)) (hub s')) =
      [mkWrite 2 PingMessage [] false FromPing] ∧
    ¬ registered 2 (hub s') ∧
    registered 3 (hub s').
Proof.
  eexists. split; [vm_compute; reflexivity|].
  match goal with
  | |- context [new_writes _ (hub ?s')] =>
      pose proof (keepAlive_probes (after three_open) [3; 2; 1] (fails_at 2)
                    s' eq_refl) as (_ & Hreg & _)
  end.
  split_and!.
  - apply (Hreg 1). by exists true.
  - apply (Hreg 2). by exists true.
  - apply (Hreg 2); [by exists true|done].
  - apply (Hreg 3); [by exists true|done].
Defined.

(** ** C8 *)

Lemma clients_true_step s a s' :
  (∀ c b, clients (hub s) !! c = Some b → b = true) →
  step a s = Some s' →
  ∀ c b, clients (hub s') !! c = Some b → b = true.
Proof.
  intros Hok Hstep c b.
  destruct a as [c0| |c0 ev|order wr|order wr]; cbn in Hstep.
  - destruct (handlers s !! c0); [done|]. injection Hstep as <-. apply Hok.
  - injection Hstep as <-. apply Hok.
  - apply wsHandler_spec in Hstep.
    destruct Hstep; simpl_state; cbn [clients add remove Close WriteMessage];
      try apply Hok.
    + rewrite lookup_insert. case_decide; [congruence|apply Hok].
    + rewrite lookup_delete. case_decide; [done|apply Hok].
  - unfold handleBroadcast in Hstep.
    destruct (engine s) as [data|]; [|done].
    case_decide; [|done]. injection Hstep as <-. cbn [hub].
    rewrite broadcast_locked_prune, range_lookup.
    case_decide; [done|apply Hok].
  - unfold keepAlive in Hstep.
    case_decide; [|done]. injection Hstep as <-. simpl_state.
    rewrite keepAlive_locked_prune, range_lookup.
    case_decide; [done|apply Hok].
Qed.

Lemma clients_true_reachable s c b :
  reachable s → clients (hub s) !! c = Some b → b = true.
Proof.
  intros Hs. revert c b. induction Hs using reachable_invariant.
  - intros c b. cbn. by rewrite lookup_empty.
  - by eapply clients_true_step.
Qed.

(** C8 (registry operations): [add] is idempotent; adding a connection
    that is present leaves the registry unchanged (in every reachable state,
    and in general whenever its flag is [true], the only value the program
    stores), so the number of entries does not grow and a connection is
    never present twice.  [remove] leaves the registry unchanged when the
    connection is absent, and otherwise deletes the entry of that
    connection and no other. *)
Theorem registry_add_remove (h : Hub) (c : Conn) :
  add c (add c h) = add c h ∧
  (clients h !! c = Some true → add c h = h) ∧
  (∀ s, reachable s → registered c (hub s) → add c (hub s) = hub s) ∧
  (registered c h → size (clients (add c h)) = size (clients h)) ∧
  (¬ registered c h → remove c h = h) ∧
  (registered c h →
     ¬ registered c (remove c h) ∧
     size (clients (remove c h)) = size (clients h) - 1) ∧
  (∀ c', c' ≠ c → clients (remove c h) !! c' = clients h !! c').
Proof.
  split_and!.
  - apply hub_eq; [|done..]. cbn. apply insert_insert_eq.
  - intros Hc. apply hub_eq; [|done..]. cbn. by apply insert_id.
  - intros s Hs [b Hb]. apply hub_eq; [|done..]. cbn. apply insert_id.
    by rewrite Hb, (clients_true_reachable s c b).
  - intros Hreg. cbn. by apply map_size_insert_Some.
  - intros Hreg. apply hub_eq; [|done..]. cbn.
    apply delete_id. by apply eq_None_not_Some.
  - intros Hreg. split.
    + rewrite registered_remove. by intros [? _].
    + cbn. rewrite map_size_delete_Some by done. lia.
  - intros c' Hne. cbn. by rewrite lookup_delete_ne.
Qed.

Lemma registry_add_remove_witness :
  add 2 (hub (after three_open)) = hub (after three_open) ∧
  remove 7 (hub (after three_open)) = hub (after three_open) ∧
  size (clients (remove 2 (hub (after three_open)))) = 2.
Proof.
  destruct (registry_add_remove (hub (after three_open)) 2)
    as (_ & Hadd & _ & _ & _ & Hrem & _).
  destruct (registry_add_remove (hub (after three_open)) 7)
    as (_ & _ & _ & _ & Hno & _).
  split_and!.
  - apply Hadd. vm_compute. reflexivity.
  - apply Hno. intros [b Hb]. vm_compute in Hb. discriminate.
  - destruct Hrem as [_ Hsize]; [by exists true|].
    rewrite Hsize. vm_compute. reflexivity.
Defined.

(** ** C5 *)

Lemma seq_from_src a n w : w_src w = FromEnvelope a n → seq_from a w = Some n.
Proof. unfold seq_from. intros ->. by rewrite decide_True. Qed.

(** C5 (order per sender): let [m1] and [m2] be two messages read from
    connection [a], [m1] first (they are entries [n1 < n2] of the log of
    received messages).  Any broadcast write of [m1] comes on the wire
    before any broadcast write of [m2], in particular the two writes
    addressed to one recipient, and each write carries the bytes that were
    read. *)
Theorem per_sender_fifo s a m1 m2 n1 n2 i j w1 w2 :
  reachable s →
  inbox s !! n1 = Some (a, m1) →
  inbox s !! n2 = Some (a, m2) →
  n1 < n2 →
  wire (hub s) !! i = Some w1 →
  wire (hub s) !! j = Some w2 →
  w_src w1 = FromEnvelope a n1 →
  w_src w2 = FromEnvelope a n2 →
  i < j ∧ w_data w1 = m1 ∧ w_data w2 = m2.
Proof.
  intros Hs Hm1 Hm2 Hn Hi Hj H1 H2.
  destruct (fifo_ok_reachable s Hs) as (_ & _ & _ & Hord).
  destruct (wire_ok_reachable s Hs) as (Hw & _ & _).
  rewrite Forall_forall in Hw.
  split_and!.
  - destruct (decide (i < j)) as [|Hge]; [done|].
    assert (n2 ≤ n1); [|lia].
    apply (Hord a j i w2 w1 n2 n1 Hj Hi); [by apply seq_from_src..|lia].
  - assert (w1 ∈ wire (hub s)) as Hin by (apply list_elem_of_lookup; eauto).
    specialize (Hw w1 Hin). unfold write_ok in Hw. rewrite H1 in Hw.
    destruct Hw as (_ & _ & Hlog). congruence.
  - assert (w2 ∈ wire (hub s)) as Hin by (apply list_elem_of_lookup; eauto).
    specialize (Hw w2 Hin). unfold write_ok in Hw. rewrite H2 in Hw.
    destruct Hw as (_ & _ & Hlog). congruence.
Qed.

Lemma per_sender_fifo_witness :
  wire (hub (after fifo_run)) !! 2 =
    Some (mkWrite 2 TextMessage hello true (FromEnvelope 1 0)) ∧
  wire (hub (after fifo_run)) !! 3 =
    Some (mkWrite 2 TextMessage world true (FromEnvelope 1 1)) ∧
  2 < 3.
Proof.
  split; [vm_compute; reflexivity|]. split; [vm_compute; reflexivity|].
  apply (per_sender_fifo (after fifo_run) 1 hello world 0 1 2 3
           (mkWrite 2 TextMessage hello true (FromEnvelope 1 0))
           (mkWrite 2 TextMessage world true (FromEnvelope 1 1))).
  - by exists fifo_run.
  - vm_compute. reflexivity.
  - vm_compute. reflexivity.
  - lia.
  - vm_compute. reflexivity.
  - vm_compute. reflexivity.
  - reflexivity.
  - reflexivity.
Defined.

(** ** C6 *)

(** C6 (welcome message): in every reachable state, a connection whose
    handler is past the welcome statement has had exactly one welcome write,
    a text frame carrying the 32 bytes of "Welcome to the WebSocket
    server!"; a connection whose handler has not reached it has had none.
    The welcome write is the statement that follows the registration: the
    only step the handler of a just registered connection can take is
    that write. *)
Theorem welcome_once s c :
  reachable s →
  welcome = list_byte_of_string "Welcome to the WebSocket server!" ∧
  (∀ ph, handlers s !! c = Some ph → ph ≠ Upgraded → ph ≠ Registered →
     ∃ ok, welcomes c (hub s) =
           [mkWrite c TextMessage welcome ok FromWelcome]) ∧
  (handlers s !! c = None ∨ handlers s !! c = Some Upgraded ∨
   handlers s !! c = Some Registered → welcomes c (hub s) = []) ∧
  (handlers s !! c = Some Registered →
     ∀ ev s', wsHandler c ev s = Some s' →
       ∃ ok, ev = EvWelcome ok ∧
             wire (hub s') =
             wire (hub s) ++ [mkWrite c TextMessage welcome ok FromWelcome]).
Proof.
  intros Hs. pose proof (welcome_ok_reachable s c Hs) as Hok.
  unfold welcome_ok in Hok. split_and!.
  - done.
  - intros ph Hph H1 H2. rewrite Hph in Hok. by destruct ph.
  - intros [Hph|[Hph|Hph]]; by rewrite Hph in Hok.
  - intros Hph ev s' Hstep. apply wsHandler_spec in Hstep.
    destruct Hstep; try congruence. by eexists.
Qed.

(** The welcome is the next statement of the handler, not necessarily the
    first frame written to the connection: the connection is registered
    before the welcome is sent, so a broadcast can be written to it first. *)
Example welcome_after_broadcast :
  writes_to 2 (wire (hub (after early_broadcast_run))) =
    [mkWrite 2 TextMessage hello true (FromEnvelope 1 0);
     mkWrite 2 TextMessage welcome true FromWelcome].
Proof. vm_compute. reflexivity. Qed.

Lemma welcome_once_witness :
  ∃ ok, welcomes 2 (hub (after three_open)) =
        [mkWrite 2 TextMessage welcome ok FromWelcome].
Proof.
  destruct (welcome_once (after three_open) 2
              (ex_intro _ three_open eq_refl)) as (_ & Hone & _).
  apply (Hone Reading); [vm_compute; reflexivity|done..].
Defined.

(** ** C9 *)

Lemma leaving_step c s a s' : leaving s c → step a s = Some s' → leaving s' c.
Proof.
  intros Hl Hstep. unfold leaving in *.
  destruct a as [c0| |c0 ev|order wr|order wr]; cbn in Hstep.
  - destruct (handlers s !! c0) eqn:Hph0; [done|]. injection Hstep as <-.
    simpl_state. rewrite lookup_insert. case_decide; [subst|done].
    by rewrite Hph0 in Hl.
  - by injection Hstep as <-.
  - apply wsHandler_spec in Hstep.
    destruct (decide (c0 = c)) as [->|Hne].
    + destruct Hstep as [s Hph|s ok Hph|s t msg Hph|s Hph|s msg seq Hph Hen
                        |s Hph|s Hph];
        simpl_state; rewrite lookup_insert_eq; rewrite Hph in Hl; try done.
      * rewrite registered_remove. by intros [? _].
      * split; [done|]. cbn. apply elem_of_app. right. left.
    + destruct Hstep; simpl_state; rewrite lookup_insert_ne by done;
        destruct (handlers s !! c) as [[]|]; try done;
        rewrite ?registered_add, ?registered_remove;
        try (intuition congruence).
      destruct Hl as [? ?]. split; [done|]. cbn. apply elem_of_app. by left.
  - unfold handleBroadcast in Hstep.
    destruct (engine s) as [data|]; [|done].
    case_decide as Hord; [|done]. injection Hstep as <-. cbn [hub handlers].
    unfold registered in *.
    destruct (handlers s !! c) as [[]|]; try done;
      rewrite broadcast_locked_prune, range_lookup;
      rewrite ?range_closed by apply Hord.
    + case_decide; [by intros [? ?]|done].
    + destruct Hl as [? ?]. split; [case_decide; [by intros [? ?]|done]|].
      apply elem_of_app. by left.
  - unfold keepAlive in Hstep.
    case_decide as Hord; [|done]. injection Hstep as <-. simpl_state.
    unfold registered in *.
    destruct (handlers s !! c) as [[]|]; try done;
      rewrite keepAlive_locked_prune, range_lookup;
      rewrite ?range_closed by apply Hord.
    + case_decide; [by intros [? ?]|done].
    + destruct Hl as [? ?]. split; [case_decide; [by intros [? ?]|done]|].
      apply elem_of_app. by left.
Qed.

(** C9 (welcome failure): when the welcome write fails, the handler goes
    straight to the deferred cleanup.  It cannot read or hand a message to
    the broadcaster; its two cleanup steps are enabled and, run at once,
    leave the connection out of the registry and closed.  Under any
    interleaving with the other goroutines the handler stays in the cleanup,
    its next cleanup step is always enabled, and once it has returned the
    connection is out of the registry and closed. *)
Theorem welcome_failure_cleanup s conn s1 :
  wsHandler conn (EvWelcome false) s = Some s1 →
  handlers s1 !! conn = Some Exiting ∧
  (∀ r, wsHandler conn (EvRead r) s1 = None) ∧
  wsHandler conn EvSend s1 = None ∧
  (∃ s2 s3,
     wsHandler conn EvDeregister s1 = Some s2 ∧
     wsHandler conn EvClose s2 = Some s3 ∧
     handlers s3 !! conn = Some Done ∧
     ¬ registered conn (hub s3) ∧ conn ∈ closed (hub s3)) ∧
  (∀ acts s', run acts s1 = Some s' →
     (handlers s' !! conn = Some Exiting ∧
        is_Some (wsHandler conn EvDeregister s')) ∨
     (handlers s' !! conn = Some Closing ∧ ¬ registered conn (hub s') ∧
        is_Some (wsHandler conn EvClose s')) ∨
     (handlers s' !! conn = Some Done ∧ ¬ registered conn (hub s') ∧
        conn ∈ closed (hub s'))).
Proof.
  intros Hstep. apply wsHandler_spec in Hstep.
  inversion Hstep as [|s0 ok Hph| | | | |]; subst.
  match goal with |- handlers ?x !! _ = _ ∧ _ => set (s1 := x) end.
  assert (handlers s1 !! conn = Some Exiting) as Hex by apply lookup_insert_eq.
  split_and!.
  - exact Hex.
  - intros r. unfold wsHandler. rewrite Hex. by destruct r as [[? ?]|].
  - unfold wsHandler. by rewrite Hex.
  - exists (set_phase conn Closing (set_hub (remove conn (hub s1)) s1)).
    exists (set_phase conn Done
              (set_hub (Close conn (remove conn (hub s1)))
                 (set_phase conn Closing
                    (set_hub (remove conn (hub s1)) s1)))).
    split_and!.
    + unfold wsHandler. by rewrite Hex.
    + unfold wsHandler. unfold set_phase at 1 2. cbn [handlers].
      by rewrite lookup_insert_eq.
    + unfold set_phase at 1. cbn [handlers]. apply lookup_insert_eq.
    + unfold set_phase at 1, set_hub at 1. cbn [hub].
      rewrite registered_Close, registered_remove. by intros [? _].
    + unfold set_phase at 1, set_hub at 1. cbn [hub closed Close].
      apply elem_of_app. right. left.
  - intros acts s' Hrun.
    assert (leaving s' conn) as Hl.
    { eapply (run_invariant (λ s, leaving s conn));
        [intros ? ? ?; apply leaving_step| |exact Hrun].
      unfold leaving. by rewrite Hex. }
    unfold leaving in Hl. unfold wsHandler.
    destruct (handlers s' !! conn) as [[]|]; try done.
    + left. split; [done|]. by eexists.
    + right. left. split_and!; [done..|]. by eexists.
    + right. right. tauto.
Qed.

Lemma welcome_failure_cleanup_witness :
  ∃ s1, wsHandler 1 (EvWelcome false) (after welcome_fails_run) = Some s1 ∧
        handlers s1 !! 1 = Some Exiting.
Proof.
  eexists. split; [vm_compute; reflexivity|].
  match goal with
  | |- handlers ?s1 !! _ = _ =>
      apply (welcome_failure_cleanup (after welcome_fails_run) 1 s1 eq_refl)
  end.
Defined.

(** * Further properties of the relay *)

Lemma reachable_after acts : is_Some (run acts init) → reachable (after acts).
Proof.
  intros [s Hs]. exists acts. unfold after. by rewrite Hs.
Qed.

(** ** The registry holds open connections only *)

Lemma registered_open s c :
  reachable s → registered c (hub s) → close_count c (hub s) = 0.
Proof.
  intros Hs Hreg. pose proof (lifecycle_reachable s c Hs) as Hok.
  unfold lifecycle_ok in Hok.
  destruct (handlers s !! c) as [[]|]; try tauto;
    by destruct Hok as [[_ ?]|[? _]].
Qed.

(** In every reachable state a registered connection has never been
    closed, and its handler stands between the registration and the
    deferred delete. *)
Theorem registered_never_closed s c :
  reachable s →
  registered c (hub s) →
  close_count c (hub s) = 0 ∧
  (handlers s !! c = Some Registered ∨
   handlers s !! c = Some Reading ∨
   (∃ msg seq, handlers s !! c = Some (Sending msg seq)) ∨
   handlers s !! c = Some Exiting).
Proof.
  intros Hs Hreg. pose proof (lifecycle_reachable s c Hs) as Hok.
  unfold lifecycle_ok in Hok.
  destruct (handlers s !! c) as [[]|]; try tauto;
    (destruct Hok as [[_ ?]|[? _]]; [|done]); split; eauto 6.
Qed.

Lemma registered_never_closed_witness :
  close_count 2 (hub (after three_open)) = 0.
Proof.
  apply (registered_never_closed (after three_open) 2).
  - apply reachable_after. vm_compute. by eexists.
  - by exists true.
Defined.

(** Neither traversal writes to a connection on which [Close] was called:
    from a reachable state, every write of a broadcast and of a tick is
    addressed to a connection that is registered and was never closed. *)
Theorem traversals_write_to_open s order wr :
  reachable s →
  (∀ s', handleBroadcast order wr s = Some s' →
     Forall (λ w, registered (w_to w) (hub s) ∧
                  close_count (w_to w) (hub s) = 0)
       (new_writes (hub s) (hub s'))) ∧
  (∀ s', keepAlive order wr s = Some s' →
     Forall (λ w, registered (w_to w) (hub s) ∧
                  close_count (w_to w) (hub s) = 0)
       (new_writes (hub s) (hub s'))).
Proof.
  intros Hs.
  assert (∀ c, registered c (hub s) →
               registered c (hub s) ∧ close_count c (hub s) = 0) as Hopen.
  { intros c Hc. split; [done|].
    by apply (registered_open s c). }
  split; intros s' Hstep.
  - unfold handleBroadcast in Hstep.
    destruct (engine s) as [data|]; [|done].
    case_decide as Hord; [|done]. injection Hstep as <-. cbn [hub].
    rewrite broadcast_new_writes by apply Hord.
    apply Forall_fmap, Forall_forall. intros c Hc. cbn.
    apply Hopen. by apply elem_of_visited in Hc as (_ & _ & ?).
  - unfold keepAlive in Hstep.
    case_decide as Hord; [|done]. injection Hstep as <-. simpl_state.
    rewrite keepAlive_new_writes by apply Hord.
    apply Forall_fmap, Forall_forall. intros c Hc. cbn.
    apply Hopen. by apply elem_of_visited in Hc as (_ & _ & ?).
Qed.

Lemma traversals_write_to_open_witness :
  ∃ s', handleBroadcast [1; 2; 3] all_ok (after hello_run) = Some s' ∧
        Forall (λ w, registered (w_to w) (hub (after hello_run)) ∧
                     close_count (w_to w) (hub (after hello_run)) = 0)
          (new_writes (hub (after hello_run)) (hub s')).
Proof.
  eexists. split; [vm_compute; reflexivity|].
  assert (reachable (after hello_run)) as Hs
    by (apply reachable_after; vm_compute; by eexists).
  apply (proj1 (traversals_write_to_open (after hello_run) [1; 2; 3] all_ok
                  Hs)).
  vm_compute. reflexivity.
Defined.

(** ** How many writes and closes a traversal makes *)

Lemma filter_ne_absent {A} `{EqDecision A} (l : list A) (x : A) :
  x ∉ l → filter (λ y, y ≠ x) l = l.
Proof.
  induction l as [|a l IH]; intros Hnin; [done|].
  apply not_elem_of_cons in Hnin as [Hne Hnin].
  rewrite filter_cons, decide_True by done. by rewrite IH.
Qed.

(** One traversal of [handleBroadcast] makes one write per registered
    connection, the sender excepted, whether the writes succeed or not: on
    a registry of [N] connections that is [N - 1] writes when the sender is
    registered and [N] writes when it has left in the meantime; on an empty
    registry, or with the sender alone, nothing is written.  When the sender
    has left, every registered connection gets the message. *)
Theorem broadcast_write_count data order wr h :
  range_order (clients h) order →
  length (new_writes h (broadcast_locked data order wr h)) =
    size (clients h) - (if decide (registered (sender data) h) then 1 else 0) ∧
  (¬ registered (sender data) h →
   ∀ c, registered c h →
     writes_to c (new_writes h (broadcast_locked data order wr h)) =
     [mkWrite c TextMessage (message data) (wr c)
        (FromEnvelope (sender data) (env_seq data))]).
Proof.
  intros Hord. pose proof Hord as [Hnd _]. split.
  - rewrite broadcast_new_writes, length_fmap, visited_range_order by done.
    rewrite (filter_ext_elem _ (λ c, c ≠ sender data))
      by (intros c _; apply not_sender_true).
    rewrite <- (range_order_length (clients h) order) by done.
    case_decide as Hreg.
    + apply filter_eq_length; [done|].
      by apply (range_order_elem (clients h)).
    + rewrite filter_ne_absent; [lia|].
      intros Hin. apply Hreg. by apply (range_order_elem (clients h) order).
  - intros Hsend c Hreg. rewrite broadcast_writes_to by done.
    rewrite decide_True; [done|]. split; [done|]. by intros ->.
Qed.

Lemma broadcast_write_count_witness :
  length (new_writes (hub (after orphan_run))
            (broadcast_locked hello_env [3; 2] (fails_at 3)
               (hub (after orphan_run)))) = 2 ∧
  writes_to 3 (new_writes (hub (after orphan_run))
                 (broadcast_locked hello_env [3; 2] (fails_at 3)
                    (hub (after orphan_run)))) =
    [mkWrite 3 TextMessage hello false (FromEnvelope 1 0)].
Proof.
  assert (range_order (clients (hub (after orphan_run))) [3; 2]) as Hord
    by (apply (bool_decide_unpack _); vm_compute; exact I).
  destruct (broadcast_write_count hello_env [3; 2] (fails_at 3)
              (hub (after orphan_run)) Hord) as [Hlen Hall].
  split.
  - rewrite Hlen. vm_compute. reflexivity.
  - apply Hall; [|by exists true].
    intros [b Hb]. vm_compute in Hb. discriminate.
Defined.

Lemma range_dom elig t data src wr order h :
  dom (clients (range_clients (prune_body elig t data src wr) order h)) =
  dom (clients h) ∖ list_to_set (pruned elig wr h order).
Proof.
  apply set_eq. intros c.
  rewrite elem_of_difference, !elem_of_dom, elem_of_list_to_set, range_lookup.
  case_decide as Hp.
  - split; [by intros [? ?]|tauto].
  - tauto.
Qed.

Lemma range_size elig t data src wr order h :
  NoDup order →
  size (clients (range_clients (prune_body elig t data src wr) order h)) +
  length (pruned elig wr h order) = size (clients h).
Proof.
  intros Hnd. rewrite <- !size_dom, range_dom.
  assert (list_to_set (pruned elig wr h order) ⊆ dom (clients h)) as Hsub.
  { intros c Hc. apply elem_of_list_to_set, elem_of_pruned in Hc.
    apply elem_of_dom. tauto. }
  rewrite size_difference by done.
  rewrite size_list_to_set by by apply NoDup_pruned.
  apply subseteq_size in Hsub.
  rewrite size_list_to_set in Hsub by by apply NoDup_pruned. lia.
Qed.

(** A traversal never adds to the registry, and what it removes it has
    closed: after a broadcast or a tick the connections still registered
    and the [Close] calls just made add up to the connections registered
    before, and no connection is closed twice by one traversal. *)
Theorem traversal_accounting data order wr h :
  range_order (clients h) order →
  (size (clients (broadcast_locked data order wr h)) +
     length (new_closes h (broadcast_locked data order wr h)) =
     size (clients h) ∧
   dom (clients (broadcast_locked data order wr h)) ⊆ dom (clients h) ∧
   NoDup (new_closes h (broadcast_locked data order wr h))) ∧
  (size (clients (keepAlive_locked order wr h)) +
     length (new_closes h (keepAlive_locked order wr h)) =
     size (clients h) ∧
   dom (clients (keepAlive_locked order wr h)) ⊆ dom (clients h) ∧
   NoDup (new_closes h (keepAlive_locked order wr h))).
Proof.
  intros [Hnd _]. split.
  - rewrite broadcast_new_closes by done. rewrite broadcast_locked_prune.
    split_and!; [by apply range_size| |by apply NoDup_pruned].
    rewrite range_dom. intros c Hc. by apply elem_of_difference in Hc as [? _].
  - rewrite keepAlive_new_closes by done. rewrite keepAlive_locked_prune.
    split_and!; [by apply range_size| |by apply NoDup_pruned].
    rewrite range_dom. intros c Hc. by apply elem_of_difference in Hc as [? _].
Qed.

Lemma traversal_accounting_witness :
  size (clients (keepAlive_locked [3; 1; 2] (fails_at 2)
                   (hub (after three_open)))) +
  length (new_closes (hub (after three_open))
            (keepAlive_locked [3; 1; 2] (fails_at 2)
               (hub (after three_open)))) = 3.
Proof.
  assert (range_order (clients (hub (after three_open))) [3; 1; 2]) as Hord
    by (apply (bool_decide_unpack _); vm_compute; exact I).
  destruct (traversal_accounting hello_env [3; 1; 2] (fails_at 2)
              (hub (after three_open)) Hord) as [_ (Hsize & _)].
  rewrite Hsize. vm_compute. reflexivity.
Defined.

Lemma pruned_nil elig wr h order :
  (∀ c, is_Some (clients h !! c) → elig c = true → wr c = true) →
  pruned elig wr h order = [].
Proof.
  intros Hok. destruct (pruned elig wr h order) as [|c l] eqn:Hp; [done|].
  assert (c ∈ pruned elig wr h order) as Hc by (rewrite Hp; left).
  apply elem_of_pruned in Hc as (_ & He & Hreg & Hw).
  rewrite (Hok c Hreg He) in Hw. done.
Qed.

(** The pruning of a tick is complete: a second tick on which the writes
    have the same outcomes closes nobody and leaves the registry as the
    first tick left it. *)
Theorem keepAlive_twice order order2 wr h :
  range_order (clients h) order →
  range_order (clients (keepAlive_locked order wr h)) order2 →
  new_closes (keepAlive_locked order wr h)
    (keepAlive_locked order2 wr (keepAlive_locked order wr h)) = [] ∧
  clients (keepAlive_locked order2 wr (keepAlive_locked order wr h)) =
  clients (keepAlive_locked order wr h).
Proof.
  intros Hord Hord2.
  assert (pruned everyone wr (keepAlive_locked order wr h) order2 = [])
    as Hnil.
  { apply pruned_nil. intros c Hreg _.
    by apply (keepAlive_registered order wr h c Hord) in Hreg as [_ ?]. }
  split.
  - rewrite keepAlive_new_closes by apply Hord2. done.
  - apply map_eq. intros c.
    rewrite (keepAlive_locked_prune order2), range_lookup, Hnil.
    by rewrite decide_False by apply not_elem_of_nil.
Qed.

Lemma keepAlive_twice_witness :
  clients (keepAlive_locked [3; 1] (fails_at 2)
             (keepAlive_locked [1; 2; 3] (fails_at 2)
                (hub (after three_open)))) =
  clients (keepAlive_locked [1; 2; 3] (fails_at 2) (hub (after three_open))).
Proof.
  apply (keepAlive_twice [1; 2; 3] [3; 1] (fails_at 2)
           (hub (after three_open)));
    apply (bool_decide_unpack _); vm_compute; exact I.
Defined.

(** ** No envelope is delivered twice *)

Lemma deliveries_app r a n h h' ws :
  wire h' = wire h ++ ws →
  deliveries r a n h' =
  deliveries r a n h ++
  filter (λ w, w_to w = r ∧ w_src w = FromEnvelope a n) ws.
Proof. intros Hw. unfold deliveries. by rewrite Hw, filter_app. Qed.

Lemma deliveries_other r a n ws :
  Forall (λ w, w_src w ≠ FromEnvelope a n) ws →
  filter (λ w, w_to w = r ∧ w_src w = FromEnvelope a n) ws = [].
Proof.
  induction 1 as [|w ws Hne _ IH]; [done|].
  rewrite filter_cons, decide_False; [done|]. by intros [_ ?].
Qed.

Lemma deliveries_text_frames r a n data wr (l : list Conn) :
  NoDup l →
  length (filter (λ w, w_to w = r ∧ w_src w = FromEnvelope a n)
            (text_frame data wr <$> l)) ≤ 1.
Proof.
  intros Hnd.
  assert (length (filter (λ w, w_to w = r ∧ w_src w = FromEnvelope a n)
                    (text_frame data wr <$> l))
          ≤ length (filter (λ c, c = r) l)) as Hle.
  { clear Hnd. induction l as [|c l IH]; [done|].
    rewrite fmap_cons, !filter_cons. cbn [w_to text_frame].
    destruct (decide (c = r)) as [->|Hne].
    - case_decide; cbn; lia.
    - rewrite decide_False by (by intros [? _]). done. }
  rewrite filter_eq_NoDup in Hle by done.
  destruct (decide (r ∈ l)); cbn in Hle; lia.
Qed.

Lemma delivered_once_step s a s' :
  reachable s → delivered_once s → step a s = Some s' → delivered_once s'.
Proof.
  intros Hs Hok Hstep r a0 n. specialize (Hok r a0 n).
  destruct a as [c0| |c0 ev|order wr|order wr]; cbn in Hstep.
  - destruct (handlers s !! c0); [done|]. by injection Hstep as <-.
  - by injection Hstep as <-.
  - apply wsHandler_spec in Hstep.
    destruct Hstep; simpl_state; try done.
    rewrite (deliveries_app _ _ _ (hub s) _
               [mkWrite c0 TextMessage welcome ok FromWelcome]) by done.
    rewrite deliveries_other, app_nil_r by (by repeat constructor). done.
  - unfold handleBroadcast in Hstep.
    destruct (engine s) as [data|] eqn:Hen; [|done].
    case_decide as Hord; [|done]. injection Hstep as <-. cbn [hub].
    rewrite (deliveries_app _ _ _ (hub s) _ _
               (broadcast_wire data order wr (hub s) (proj1 Hord))).
    rewrite length_app.
    destruct (decide (sender data = a0 ∧ env_seq data = n)) as [[<- <-]|Hne].
    + destruct (fifo_ok_reachable s Hs) as (_ & Hb & _).
      destruct (Hb data Hen) as [_ Hbel].
      assert (deliveries r (sender data) (env_seq data) (hub s) = []) as ->.
      { destruct (deliveries r (sender data) (env_seq data) (hub s))
          as [|w l] eqn:Hd; [done|].
        assert (w ∈ deliveries r (sender data) (env_seq data) (hub s))
          as Hw by (rewrite Hd; left).
        apply list_elem_of_filter in Hw as [[_ Hsrc] Hin].
        apply seq_from_src in Hsrc. specialize (Hbel w _ Hin Hsrc). lia. }
      cbn. apply deliveries_text_frames, NoDup_visited, Hord.
    + rewrite deliveries_other; [cbn; lia|].
      apply Forall_fmap, Forall_true. intros c. cbn. intros [= ? ?]. tauto.
  - unfold keepAlive in Hstep.
    case_decide as Hord; [|done]. injection Hstep as <-. simpl_state.
    rewrite (deliveries_app _ _ _ (hub s) _ _
               (keepAlive_wire order wr (hub s) (proj1 Hord))).
    rewrite deliveries_other, app_nil_r; [done|].
    by apply Forall_fmap, Forall_true.
Qed.

(** Over a whole run no message is delivered twice: in every reachable
    state the wire holds at most one broadcast write per recipient and
    envelope. *)
Theorem no_duplicate_delivery s r a n :
  reachable s → length (deliveries r a n (hub s)) ≤ 1.
Proof.
  intros Hs. revert r a n. change (delivered_once s).
  induction Hs using reachable_invariant.
  - intros r a n. cbn. lia.
  - by eapply delivered_once_step.
Qed.

Lemma no_duplicate_delivery_witness :
  length (deliveries 2 1 0 (hub (after fifo_run))) ≤ 1.
Proof.
  apply (no_duplicate_delivery (after fifo_run) 2 1 0).
  apply reachable_after. vm_compute. by eexists.
Defined.

(** ** A connection is registered once *)

Lemma gone_step c s a s' :
  past_registration s c ∧ ¬ registered c (hub s) →
  step a s = Some s' →
  past_registration s' c ∧ ¬ registered c (hub s').
Proof.
  intros [(ph & Hph & Hup) Hreg] Hstep. unfold past_registration.
  destruct a as [c0| |c0 ev|order wr|order wr]; cbn in Hstep.
  - destruct (handlers s !! c0) eqn:Hph0; [done|]. injection Hstep as <-.
    simpl_state. rewrite lookup_insert_ne by congruence. eauto.
  - injection Hstep as <-. eauto.
  - apply wsHandler_spec in Hstep.
    destruct (decide (c0 = c)) as [->|Hne].
    + destruct Hstep as [s Hp|s ok Hp|s t msg Hp|s Hp|s msg seq Hp Hen
                        |s Hp|s Hp];
        simpl_state; rewrite lookup_insert_eq; hub_simpl;
        try (split; [by eauto|tauto]).
      * congruence.
      * split; [|done]. destruct ok; by eauto.
    + destruct Hstep; simpl_state; rewrite lookup_insert_ne by done;
        hub_simpl; (split; [by eauto|intuition congruence]).
  - unfold handleBroadcast in Hstep.
    destruct (engine s) as [data|]; [|done].
    case_decide as Hord; [|done]. injection Hstep as <-. cbn [hub handlers].
    split; [by eauto|]. apply not_registered_None.
    rewrite broadcast_locked_prune. by apply range_lookup_None, not_registered_None.
  - unfold keepAlive in Hstep.
    case_decide as Hord; [|done]. injection Hstep as <-. simpl_state.
    split; [by eauto|]. apply not_registered_None.
    rewrite keepAlive_locked_prune. by apply range_lookup_None, not_registered_None.
Qed.

(** A connection is registered once: after its handler has executed the
    registration, a connection that is out of the registry (deleted by a
    traversal or by the deferred cleanup) stays out of it along every
    continuation of the run. *)
Theorem deregistration_final s c acts s' :
  past_registration s c →
  ¬ registered c (hub s) →
  run acts s = Some s' →
  past_registration s' c ∧ ¬ registered c (hub s').
Proof.
  intros Hpast Hreg Hrun.
  eapply (run_invariant
            (λ s, past_registration s c ∧ ¬ registered c (hub s)));
    [intros ? ? ?; apply gone_step| |exact Hrun].
  done.
Qed.

Lemma deregistration_final_witness :
  ¬ registered 2
      (hub (default init
              (run [Tick [3; 1] all_ok; Handler 2 (EvRead None);
                    Handler 2 EvDeregister]
                 (after pruned_run)))).
Proof.
  apply (deregistration_final (after pruned_run) 2
           [Tick [3; 1] all_ok; Handler 2 (EvRead None);
            Handler 2 EvDeregister]).
  - exists Reading. split; [vm_compute; reflexivity|done].
  - intros [b Hb]. vm_compute in Hb. discriminate.
  - vm_compute. reflexivity.
Defined.

(** ** A failed read is final *)

Lemma heard_grow c s c0 msg :
  filter (λ e : Conn * list byte, e.1 = c) (inbox s ++ [(c0, msg)]) =
  heard c s ++ (if decide (c0 = c) then [(c0, msg)] else []).
Proof.
  unfold heard. by rewrite filter_app.
Qed.

Lemma quiet_step c K E s a s' :
  leaving s c ∧ heard c s = K ∧
    (∀ data, engine s = Some data → sender data = c → E = Some data) →
  step a s = Some s' →
  leaving s' c ∧ heard c s' = K ∧
    (∀ data, engine s' = Some data → sender data = c → E = Some data).
Proof.
  intros (Hl & Hk & He) Hstep.
  split; [by eapply leaving_step|].
  destruct a as [c0| |c0 ev|order wr|order wr]; cbn in Hstep.
  - destruct (handlers s !! c0); [done|]. by injection Hstep as <-.
  - by injection Hstep as <-.
  - apply wsHandler_spec in Hstep.
    assert (∀ p, handlers s !! c0 = Some p →
                 p = Reading ∨ (∃ m k, p = Sending m k) → c0 ≠ c) as Hne.
    { intros p Hp Hcase ->. unfold leaving in Hl. rewrite Hp in Hl.
      destruct Hcase as [->|(m & k & ->)]; done. }
    destruct Hstep as [s Hp|s ok Hp|s t msg Hp|s Hp|s msg seq Hp Hen
                      |s Hp|s Hp]; simpl_state; try done.
    + unfold heard. cbn [inbox]. rewrite heard_grow.
      rewrite decide_False by (eapply Hne; eauto). by rewrite app_nil_r.
    + split; [done|]. intros data [= <-] Hsend. cbn in Hsend.
      exfalso. eapply Hne; eauto.
  - unfold handleBroadcast in Hstep.
    destruct (engine s) as [data|]; [|done].
    case_decide; [|done]. injection Hstep as <-. by cbn.
  - unfold keepAlive in Hstep.
    case_decide; [|done]. by injection Hstep as <-.
Qed.

(** A failed read (or welcome) is final for the connection: once its
    handler is in the deferred cleanup no further message is read from the
    connection, and no new envelope of it reaches the broadcaster (the only
    one the broadcaster can hold is the one it held already). *)
Theorem no_read_after_exit s c acts s' :
  leaving s c →
  run acts s = Some s' →
  heard c s' = heard c s ∧
  (∀ data, engine s' = Some data → sender data = c → engine s = Some data).
Proof.
  intros Hl Hrun.
  eapply (run_invariant
            (λ s0, leaving s0 c ∧ heard c s0 = heard c s ∧
                   (∀ data, engine s0 = Some data → sender data = c →
                            engine s = Some data)));
    [intros ? ? ?; apply quiet_step| |exact Hrun].
  split_and!; [done..|]. by intros data ->.
Qed.

Lemma no_read_after_exit_witness :
  heard 1 (default init
             (run [Broadcast [3; 2] all_ok; Handler 2 (EvRead None)]
                (after orphan_run))) =
  heard 1 (after orphan_run).
Proof.
  apply (no_read_after_exit (after orphan_run) 1
           [Broadcast [3; 2] all_ok; Handler 2 (EvRead None)]).
  - vm_compute. split; [intros [b Hb]; discriminate|].
    apply list_elem_of_In. by left.
  - vm_compute. reflexivity.
Defined.

(** ** Messages are accepted after a successful welcome only *)

Lemma accept_ok_step s a s' :
  reachable s →
  (∀ c, accept_ok s c) → step a s = Some s' → ∀ c, accept_ok s' c.
Proof.
  intros Hs Hok Hstep c. specialize (Hok c). unfold accept_ok, welcomed in *.
  destruct a as [c0| |c0 ev|order wr|order wr]; cbn in Hstep.
  - destruct (handlers s !! c0) eqn:Hph0; [done|]. injection Hstep as <-.
    simpl_state. rewrite lookup_insert. case_decide; [subst|done].
    by rewrite Hph0 in Hok.
  - by injection Hstep as <-.
  - apply wsHandler_spec in Hstep.
    destruct (decide (c0 = c)) as [->|Hne].
    + pose proof (welcome_ok_reachable s c Hs) as Hw. unfold welcome_ok in Hw.
      destruct Hstep as [s Hp|s ok Hp|s t msg Hp|s Hp|s msg seq Hp Hen
                        |s Hp|s Hp];
        simpl_state; rewrite lookup_insert_eq; rewrite Hp in Hok;
        try done; try (by right).
      rewrite Hp in Hw. destruct ok; [|by left].
      by rewrite welcomes_WriteMessage, decide_True, Hw.
    + destruct Hstep; simpl_state; rewrite lookup_insert_ne by done;
        unfold heard; cbn [inbox];
        rewrite ?heard_grow, ?decide_False, ?app_nil_r by done;
        try done.
      by rewrite welcomes_WriteMessage, decide_False, app_nil_r.
  - unfold handleBroadcast in Hstep.
    destruct (engine s) as [data|] eqn:Hen; [|done].
    case_decide as Hord; [|done]. injection Hstep as <-. cbn [hub handlers].
    by rewrite welcomes_broadcast by apply Hord.
  - unfold keepAlive in Hstep.
    case_decide as Hord; [|done]. injection Hstep as <-. simpl_state.
    by rewrite welcomes_keepAlive by apply Hord.
Qed.

Lemma accept_ok_reachable s c : reachable s → accept_ok s c.
Proof.
  intros Hs. revert c. induction Hs using reachable_invariant.
  - intros c. unfold accept_ok. cbn. by rewrite lookup_empty.
  - by eapply accept_ok_step.
Qed.

(** The server reads from a connection only after its welcome write has
    succeeded: in every reachable state, a connection with a message in the
    log of received messages has exactly one welcome write, with a nil
    error. *)
Theorem heard_after_welcome s c msg :
  reachable s →
  (c, msg) ∈ inbox s →
  welcomes c (hub s) = [mkWrite c TextMessage welcome true FromWelcome].
Proof.
  intros Hs Hin. pose proof (accept_ok_reachable s c Hs) as Hok.
  assert ((c, msg) ∈ heard c s) as Hh by (by apply list_elem_of_filter).
  unfold accept_ok, welcomed in Hok.
  destruct (handlers s !! c) as [[]|]; try done;
    try (rewrite Hok in Hh; by apply elem_of_nil in Hh);
    (destruct Hok as [Hok|Hok]; [|done]);
    rewrite Hok in Hh; by apply elem_of_nil in Hh.
Qed.

Lemma heard_after_welcome_witness :
  welcomes 1 (hub (after orphan_run)) =
    [mkWrite 1 TextMessage welcome true FromWelcome].
Proof.
  apply (heard_after_welcome (after orphan_run) 1 hello).
  - apply reachable_after. vm_compute. by eexists.
  - vm_compute. apply list_elem_of_In. by left.
Defined.

(** * The echo server *)

Lemma reader_smooth l :
  reader (smooth l) = mkSession (echoes l) (payloads l) Blocked.
Proof.
  induction l as [|[t p] l IH]; [done|].
  cbn. unfold smooth in IH. by rewrite IH.
Qed.

Lemma reader_smooth_app l rest :
  reader (smooth l ++ rest) =
  mkSession (echoes l ++ written (reader rest))
            (payloads l ++ printed (reader rest)) (exit (reader rest)).
Proof.
  induction l as [|[t p] l IH]; [cbn; by destruct (reader rest)|].
  cbn. unfold smooth in IH. by rewrite IH.
Qed.

(** [reader] stops at the first failure and looks at nothing after it.
    While reads and writes succeed every message is written back; a failed
    read ends the loop with nothing more written; a failed write ends it
    after that one attempt, the message having been printed. *)
Theorem reader_first_failure l :
  reader (smooth l) = mkSession (echoes l) (payloads l) Blocked ∧
  (∀ b rest,
     reader (smooth l ++ (None, b) :: rest) =
     mkSession (echoes l) (payloads l) ReadFailed) ∧
  (∀ t p rest,
     reader (smooth l ++ (Some (t, p), false) :: rest) =
     mkSession (echoes l ++ [mkFrame t p false]) (payloads l ++ [p])
       WriteFailed).
Proof.
  split_and!.
  - apply reader_smooth.
  - intros b rest. rewrite reader_smooth_app. cbn. by rewrite !app_nil_r.
  - intros t p rest. by rewrite reader_smooth_app.
Qed.

(** The echo is faithful: the [i]-th write of [reader] carries the frame
    type and the bytes of the [i]-th message read, unchanged, and every
    write but the last one made has succeeded. *)
Theorem reader_echoes script i w :
  written (reader script) !! i = Some w →
  script !! i = Some (Some (f_type w, f_data w), f_ok w) ∧
  (S i < length (written (reader script)) → f_ok w = true).
Proof.
  revert i. induction script as [|[[[t p]|] ok] rest IH]; intros i Hw;
    [done| |done].
  cbn in Hw. destruct ok.
  - cbn in Hw. destruct i as [|i].
    + injection Hw as <-. done.
    + cbn in Hw. destruct (IH i Hw) as [Hs Hlast].
      split; [done|]. cbn. intros Hlt. apply Hlast. lia.
  - destruct i as [|i]; [|done]. injection Hw as <-.
    split; [done|]. cbn. lia.
Qed.

Lemma reader_echoes_witness :
  [(Some (2%Z, hello), true); (Some (1%Z, world), false);
   (Some (1%Z, hello), true)] !! 1 =
  Some (Some (1%Z, world), false).
Proof.
  apply (reader_echoes
           [(Some (2%Z, hello), true); (Some (1%Z, world), false);
            (Some (1%Z, hello), true)] 1 (mkFrame 1 world false)).
  reflexivity.
Defined.



